(** * mysocks5: the SOCKS5 session handler of [mysocks5.go]

    A shallow embedding of [New], [ServeConn] and [needNoAuth], together with
    the parts of Go's [bufio] and [io] packages they call, and the properties
    of a session that follow from them.

    A connection is modelled by what the client will send (a queue of
    non-empty chunks followed by the error that ends the stream) and by what
    happens to each [Write] call; a session records every operation it
    performs in a trace. *)

From stdpp Require Import base option list gmap strings.
From Stdlib Require Import Strings.Byte ZArith.


(** ** Bytes and constants *)

Abbreviation byte := Byte.byte.

(** [socks5Version = uint8(5)] and [noAuth = uint8(0)]. *)
Definition socks5Version : byte := x05.
Definition noAuth : byte := x00.

(** ** Errors

    Go compares errors by identity, so every error value the program can build
    is a constructor: the sentinels of package [io], a transport failure of
    package [net], the package-level sentinel [unrecognizedAddrType], and
    [fmt.Errorf] with its format string and its argument. *)

Inductive error : Type :=
  | EOF
  | ErrUnexpectedEOF
  | ErrShortBuffer
  | OpError (msg : string)
  | unrecognizedAddrType
  | Errorf (format : string) (arg : value)
with value : Type :=
  | VErr (e : error)
  | VBytes (p : list byte)
  | VByte (b : byte).

(** [err == io.EOF] *)
Definition is_EOF (e : error) : bool :=
  match e with EOF => true | _ => false end.

(** [err == unrecognizedAddrType] *)
Definition is_unrecognizedAddrType (e : error) : bool :=
  match e with unrecognizedAddrType => true | _ => false end.

(** ** The inbound side of a connection

    [net.Conn.Read] hands over the bytes of the next segment that arrived, at
    most as many as the buffer holds, and reports an error only when nothing
    is left; a read into a non-empty buffer never returns [(0, nil)]. *)

Record chunk := Chunk { c_head : byte; c_tail : list byte }.

Definition chunk_bytes (c : chunk) : list byte := c_head c :: c_tail c.

Definition chunk_of (p : list byte) : option chunk :=
  match p with
  | [] => None
  | b :: t => Some (Chunk b t)
  end.

Record Inbound := { pending : list chunk; rd_err : error }.

(** [conn.Read(p)] with [len(p) = k]. *)
Definition conn_Read (k : nat) (i : Inbound) : list byte * option error * Inbound :=
  match pending i with
  | [] => ([], Some (rd_err i), i)
  | c :: cs =>
      let bs := chunk_bytes c in
      (take k bs, None,
       {| pending := match chunk_of (drop k bs) with
                     | Some c' => c' :: cs
                     | None => cs
                     end;
          rd_err := rd_err i |})
  end.

(** ** [bufio.Reader]

    [buf] are the bytes between the read and write positions of the reader's
    buffer, [src] is the reader it wraps. The sticky error field of the Go
    type is always nil between two calls here, because the connection never
    returns data together with an error. *)

Record Reader := { buf : list byte; src : Inbound }.

Definition defaultBufSize : nat := 4096.

(** [bufio.NewReader(conn)] *)
Definition NewReader (i : Inbound) : Reader := {| buf := []; src := i |}.

(** [bufConn.Read(p)] on a [bufio.Reader], with [len(p) = k]: at most one
    read of the underlying connection, straight into [p] when [p] is at least
    as large as the buffer, and otherwise into the buffer, from which [p] is
    then filled. *)
Definition bufio_Read (k : nat) (r : Reader) : list byte * option error * Reader :=
  match k with
  | 0 => ([], None, r)
  | _ =>
      match buf r with
      | [] =>
          if decide (defaultBufSize ≤ k) then
            let '(bs, err, i) := conn_Read k (src r) in
            (bs, err, {| buf := []; src := i |})
          else
            let '(bs, err, i) := conn_Read defaultBufSize (src r) in
            match bs with
            | [] => ([], err, {| buf := []; src := i |})
            | _ => (take k bs, None, {| buf := drop k bs; src := i |})
            end
      | b =>
          (take k b, None, {| buf := drop k b; src := src r |})
      end
  end.

(** ** [io.ReadAtLeast]

<<
    for n < min && err == nil {
        nn, err = r.Read(buf[n:])
        n += nn
    }
>>
    [need] is [min - n], [room] is [len(buf) - n] and [acc] the bytes read so
    far. A read that returns no error returns at least one byte, so [need]
    iterations are enough ([ReadAtLeast_loop_fuel]). *)
Fixpoint ReadAtLeast_loop (fuel need room : nat) (acc : list byte) (r : Reader)
  : list byte * option error * Reader :=
  match fuel with
  | 0 => (acc, None, r)
  | S fuel' =>
      match need with
      | 0 => (acc, None, r)
      | _ =>
          let '(bs, err, r') := bufio_Read room r in
          match err with
          | Some e => (acc ++ bs, Some e, r')
          | None =>
              ReadAtLeast_loop fuel' (need - length bs) (room - length bs)
                               (acc ++ bs) r'
          end
      end
  end.

(** [io.ReadAtLeast(r, buf, min)] with [len(buf) = size]; the result is the
    bytes read, in order. *)
Definition ReadAtLeast (r : Reader) (size min : nat)
  : list byte * option error * Reader :=
  if decide (size < min) then ([], Some ErrShortBuffer, r)
  else
    let '(bs, err, r') := ReadAtLeast_loop min min size [] r in
    if decide (min ≤ length bs) then (bs, None, r')
    else
      match err with
      | Some e =>
          if bool_decide (0 < length bs) && is_EOF e
          then (bs, Some ErrUnexpectedEOF, r')
          else (bs, Some e, r')
      | None => (bs, None, r')
      end.

(** Reading into a slice overwrites its first bytes: [fill p bs] is [p] after
    a read that returned [bs]. *)
Definition fill (p bs : list byte) : list byte := bs ++ drop (length bs) p.

(** The bytes still to be delivered by a reader, buffered or not. *)
Definition stream_of (i : Inbound) : list byte :=
  concat (chunk_bytes <$> pending i).

Definition stream (r : Reader) : list byte := buf r ++ stream_of (src r).

(** ** Addresses, requests and replies *)

(** The concrete types behind [net.Addr] that a connection can report. *)
Inductive Addr : Type :=
  | TCPAddr (IP : list byte) (Port : Z) (Zone : string)
  | UDPAddr (IP : list byte) (Port : Z) (Zone : string)
  | UnixAddr (Name : string) (Net : string)
  | PipeAddr.

(** Modelled from the spec: the type [AddrSpec] is declared outside
    mysocks5.go. [ServeConn] builds one from the fields [IP] and [Port]; the
    spec's AddressSpec also holds a domain name. *)
Record AddrSpec := { FQDN : string; IP : list byte; Port : Z }.

(** Modelled from the spec: the command of a request, CONNECT=1, BIND=2,
    UDP-ASSOCIATE=3, any other value unsupported. *)
Inductive command : Type :=
  | CONNECT
  | BIND
  | UDP_ASSOCIATE
  | UnsupportedCommand (b : byte).

(** Modelled from the spec: the type [Request] is declared outside
    mysocks5.go. [ServeConn] assigns its field [RemoteAddr], a pointer to an
    [AddrSpec] ([None] is nil); the spec gives it a command and a destination. *)
Record Request := {
  Command : command;
  DestAddr : AddrSpec;
  RemoteAddr : option AddrSpec
}.

Definition set_RemoteAddr (a : option AddrSpec) (q : Request) : Request :=
  {| Command := Command q; DestAddr := DestAddr q; RemoteAddr := a |}.

(** Modelled from the spec: the reply codes of section 6; the constants are
    declared outside mysocks5.go. *)
Definition successReply : byte := x00.
Definition serverFailure : byte := x01.
Definition networkUnreachable : byte := x03.
Definition hostUnreachable : byte := x04.
Definition connectionRefused : byte := x05.
Definition commandNotSupported : byte := x07.
Definition addrTypeNotSupported : byte := x08.

(** ** The outbound side of a connection, and the session state *)

(** What happens to one [Write] call: all bytes are taken, or the first [n]
    are and the call fails with [e]. Calls past the end of the script succeed. *)
Inductive wr_outcome : Type :=
  | WrOk
  | WrFail (n : nat) (e : error).

Record Conn := {
  inb : Inbound;
  wr_script : list wr_outcome;
  sent : list byte;
  closed : bool;
  remote : Addr
}.

Inductive direction : Type := ClientToUpstream | UpstreamToClient.

(** Everything a session does that can be observed from outside. *)
Inductive event : Type :=
  | EvLog (format : string) (arg : value)
  | EvWrite (p : list byte) (n : nat) (err : option error)
  | EvSendReply (rep : byte) (bnd : option AddrSpec) (err : option error)
  | EvHandleRequest (q : Request)
  | EvDial (dst : AddrSpec)
  | EvRelay (d : direction) (p : list byte)
  | EvClose.

(** [conn] is the client connection, [rbuf] the buffer of the
    [bufio.Reader] wrapped around it, [trace] the operations so far. *)
Record State := { conn : Conn; rbuf : list byte; trace : list event }.

Definition set_inb (i : Inbound) (c : Conn) : Conn :=
  {| inb := i; wr_script := wr_script c; sent := sent c;
     closed := closed c; remote := remote c |}.

(** The [bufio.Reader] of a session and the connection under it are one
    object seen from two sides. *)
Definition get_reader (st : State) : Reader :=
  {| buf := rbuf st; src := inb (conn st) |}.

Definition put_reader (r : Reader) (st : State) : State :=
  {| conn := set_inb (src r) (conn st); rbuf := buf r; trace := trace st |}.

Definition record (e : event) (st : State) : State :=
  {| conn := conn st; rbuf := rbuf st; trace := trace st ++ [e] |}.

(** A step of a session: a result and the state after it. *)
Definition M (A : Type) : Type := State → A * State.

Definition ret {A} (a : A) : M A := λ st, (a, st).

Definition bind {A B} (m : M A) (k : A → M B) : M B :=
  λ st, let '(a, st') := m st in k a st'.

#[global] Instance M_ret : MRet M := @ret.
#[global] Instance M_bind : MBind M := λ A B k m, bind m k.

(** A read through the session's [bufio.Reader]. *)
Definition reading {A} (f : Reader → A * Reader) : M A :=
  λ st, let '(a, r) := f (get_reader st) in (a, put_reader r st).

(** [conn.Write(p)] *)
Definition Write (p : list byte) : M (nat * option error) :=
  λ st,
    let c := conn st in
    let '(n, err) :=
      match wr_script c with
      | WrFail n e :: _ => (n `min` length p, Some e)
      | _ => (length p, None)
      end in
    ((n, err),
     record (EvWrite p n err)
       {| conn := {| inb := inb c; wr_script := tail (wr_script c);
                     sent := sent c ++ take n p;
                     closed := closed c; remote := remote c |};
          rbuf := rbuf st; trace := trace st |}).

(** [conn.Close()] *)
Definition Close : M unit :=
  λ st,
    let c := conn st in
    (tt,
     record EvClose
       {| conn := {| inb := inb c; wr_script := wr_script c; sent := sent c;
                     closed := true; remote := remote c |};
          rbuf := rbuf st; trace := trace st |}).

(** [s.config.Logger.Printf(format, arg)] *)
Definition Printf (format : string) (arg : value) : M unit :=
  λ st, (tt, record (EvLog format arg) st).

(** ** [needNoAuth] *)

(** [needNoAuth(r, w)] with [r] the session's [bufio.Reader] and [w] the
    connection: read the method count, read that many method bytes, answer
    with the version and the no-authentication method. *)
Definition needNoAuth : M (option error) :=
  let header := [x00] in
  '(bs, err) ← reading (bufio_Read (length header));
  match err with
  | Some e => mret (Some e)
  | None =>
      let header := fill header bs in
      let numMethods := Byte.to_nat (default x00 (head header)) in
      let methods := replicate numMethods x00 in
      '(_, err) ← reading (λ r, ReadAtLeast r (length methods) numMethods);
      match err with
      | Some e => mret (Some e)
      | None =>
          '(_, err) ← Write [socks5Version; noAuth];
          mret err
      end
  end.

(** ** [Config], [Server] and [New] *)

Inductive File : Type := Stdout | Stderr.

(** A [log.Logger]: where it writes, its prefix and its flags. *)
Record log_Logger := { out : File; prefix : string; flag : Z }.

(** [log.LstdFlags = Ldate | Ltime] *)
Definition LstdFlags : Z := Z.lor 1 2.

(** [log.New(out, prefix, flag)] *)
Definition log_New (w : File) (p : string) (f : Z) : log_Logger :=
  {| out := w; prefix := p; flag := f |}.

(** [Config]; the field [Logger] is a pointer, [None] is nil. *)
Record Config := { BindIP : list byte; Logger : option log_Logger }.

(** Configurations live in a store and are passed by address, so that a
    caller sees what [New] writes into its [Config]. *)
Definition loc := positive.

Record Server := { config : loc }.

(** [New(conf)]: [conf] is [None] for a nil pointer. The result is [None]
    when the call panics (on [conf.Logger] of a nil or dangling pointer), and
    otherwise the returned [*Server] ([None] for nil), the returned error and
    the store after the call. *)
Definition New (conf : option loc) (h : gmap loc Config)
  : option (option Server * option error * gmap loc Config) :=
  l ← conf;
  c ← h !! l;
  let h' :=
    match Logger c with
    | None =>
        <[l := {| BindIP := BindIP c;
                  Logger := Some (log_New Stdout EmptyString LstdFlags) |}]> h
    | Some _ => h
    end in
  let server := {| config := l |} in
  Some (Some server, None, h').

(** ** [ServeConn] *)

(** The state in which the body of [ServeConn] starts: nothing done yet, and
    [bufConn := bufio.NewReader(conn)]. *)
Definition init (c : Conn) : State :=
  let bufConn := NewReader (inb c) in
  {| conn := c; rbuf := buf bufConn; trace := [] |}.

(** [conn.RemoteAddr()] *)
Definition RemoteAddr_of_conn : M Addr := λ st, (remote (conn st), st).

(** A call of a function declared outside the file. The trace is a history:
    whatever the callee does, what was done before the call stays done, and
    the callee's own operations come after it. *)
Definition fresh (st : State) : State :=
  {| conn := conn st; rbuf := rbuf st; trace := [] |}.

Definition extern {A} (f : M A) : M A :=
  λ st,
    let '(a, st') := f (fresh st) in
    (a, {| conn := conn st'; rbuf := rbuf st'; trace := trace st ++ trace st' |}).

Section Session.

(** The three functions of the package that [ServeConn] calls and that are
    declared outside mysocks5.go. [NewRequest] is given the
    [bufio.Reader] only; the other two are given the connection. *)
Variable NewRequest : Reader → (Request + error) * Reader.
Variable sendReply : byte → option AddrSpec → M (option error).
Variable handleRequest : Server → Request → M (option error).

(** [sendReply(conn, rep, bnd)], recorded with the error it returned. *)
Definition call_sendReply (rep : byte) (bnd : option AddrSpec) : M (option error) :=
  λ st,
    let '(err, st') := extern (sendReply rep bnd) st in
    (err, record (EvSendReply rep bnd err) st').

(** [s.handleRequest(request, conn)], recorded with the request it is given. *)
Definition call_handleRequest (s : Server) (q : Request) : M (option error) :=
  λ st, extern (handleRequest s q) (record (EvHandleRequest q) st).

(** The body of [ServeConn], from the read of the version byte on. *)
Definition ServeConn_body (s : Server) : M (option error) :=
  let version := [x00] in
  '(bs, err) ← reading (bufio_Read (length version));
  match err with
  | Some e =>
      _ ← Printf "[ERR] socks: Failed to get version byte: %v" (VErr e);
      mret (Some e)
  | None =>
      let version := fill version bs in
      if negb (Byte.eqb (default x00 (head version)) socks5Version) then
        let err := Errorf "Unsupported SOCKS version: %v" (VBytes version) in
        _ ← Printf "[ERR] socks: %v" (VErr err);
        mret (Some err)
      else
        err ← needNoAuth;
        match err with
        | Some e =>
            _ ← Printf "[ERR] socks: Invalid method region: %v" (VErr e);
            mret (Some e)
        | None =>
            res ← reading NewRequest;
            match res with
            | inr err =>
                early ←
                  (if is_unrecognizedAddrType err then
                     err' ← call_sendReply addrTypeNotSupported None;
                     match err' with
                     | Some e' =>
                         mret (Some (Errorf "Failed to send reply: %v" (VErr e')))
                     | None => mret None
                     end
                   else mret None);
                match early with
                | Some e => mret (Some e)
                | None =>
                    mret (Some (Errorf "Failed to read destination address: %v"
                                       (VErr err)))
                end
            | inl request =>
                client ← RemoteAddr_of_conn;
                let request :=
                  match client with
                  | TCPAddr ip port _ =>
                      set_RemoteAddr
                        (Some {| FQDN := EmptyString; IP := ip; Port := port |}) request
                  | _ => request
                  end in
                err ← call_handleRequest s request;
                match err with
                | Some e =>
                    let err := Errorf "Failed to handle request: %v" (VErr e) in
                    _ ← Printf "[ERR] socks: %v" (VErr err);
                    mret (Some err)
                | None => mret None
                end
            end
        end
  end.

(** [ServeConn(conn)]: [defer conn.Close()], [bufio.NewReader(conn)], then
    the body; the deferred call runs when the body has returned. *)
Definition ServeConn (s : Server) (c : Conn) : option error * State :=
  (err ← ServeConn_body s; _ ← Close; mret err) (init c).

End Session.

(** ** The collaborators of [ServeConn], from the spec *)

(** A decoding step: a value or an error, and the reader after it. *)
Definition Dec (A : Type) : Type := Reader → (A + error) * Reader.

#[global] Instance Dec_ret : MRet Dec := λ A a r, (inl a, r).
#[global] Instance Dec_bind : MBind Dec := λ A B k m r,
  match m r with
  | (inl a, r') => k a r'
  | (inr e, r') => (inr e, r')
  end.

Definition failwith {A} (e : error) : Dec A := λ r, (inr e, r).

(** Read exactly [k] bytes; a short read or an I/O error is the failure. *)
Definition read_exact (k : nat) : Dec (list byte) := λ r,
  let '(bs, err, r') := ReadAtLeast r k k in
  match err with
  | Some e => (inr e, r')
  | None => (inl bs, r')
  end.

Definition read_byte : Dec byte :=
  bs ← read_exact 1; mret (default x00 (head bs)).

Definition command_of_byte (b : byte) : command :=
  if Byte.eqb b x01 then CONNECT
  else if Byte.eqb b x02 then BIND
  else if Byte.eqb b x03 then UDP_ASSOCIATE
  else UnsupportedCommand b.

(** A 16-bit port from its two bytes, big-endian. *)
Definition port_of_bytes (p : list byte) : Z :=
  match p with
  | [hi; lo] => Z.of_N (Byte.to_N hi) * 256 + Z.of_N (Byte.to_N lo)
  | _ => 0
  end.

(** Modelled from the spec: [NewRequest] is declared outside mysocks5.go.
    Sections 4.1 and 4.3: read the version byte, which must match; the command
    byte; one reserved byte, ignored; the address-type byte, IPv4=1, domain=3,
    IPv6=4, any other value failing with [unrecognizedAddrType]; the address
    body of 4 bytes, of a length byte [L] and [L] bytes, or of 16 bytes; the
    port, 2 bytes big-endian. A short read or I/O error aborts with that
    error. An unsupported command is a classification of the request and not
    a decoding failure: sections 7 and 8 require a command-not-supported
    reply for it, and [ServeConn] lets only the command executor send one. *)
Definition NewRequest_spec : Dec Request :=
  ver ← read_byte;
  if negb (Byte.eqb ver socks5Version) then
    failwith (Errorf "Unsupported command version: %v" (VByte ver))
  else
    cmd ← read_byte;
    _ ← read_byte;
    atyp ← read_byte;
    dest ←
      (if Byte.eqb atyp x01 then
         ip ← read_exact 4; mret {| FQDN := EmptyString; IP := ip; Port := 0 |}
       else if Byte.eqb atyp x03 then
         l ← read_byte;
         name ← read_exact (Byte.to_nat l);
         mret {| FQDN := String.string_of_list_byte name; IP := []; Port := 0 |}
       else if Byte.eqb atyp x04 then
         ip ← read_exact 16; mret {| FQDN := EmptyString; IP := ip; Port := 0 |}
       else failwith unrecognizedAddrType);
    port ← read_exact 2;
    mret {| Command := command_of_byte cmd;
            DestAddr := {| FQDN := FQDN dest; IP := IP dest;
                           Port := port_of_bytes port |};
            RemoteAddr := None |}.

Definition byte_of_Z (z : Z) : byte :=
  default x00 (Byte.of_N (Z.to_N (z `mod` 256))).

(** Modelled from the spec: the encoding of a reply, section 4.1: version
    byte, reply code, a reserved zero byte, the address type, the address body
    and the port, big-endian; the zero IPv4 address and port 0 when there is
    no bound address. *)
Definition encode_reply (rep : byte) (bnd : option AddrSpec) : list byte :=
  let '(atyp, body, port) :=
    match bnd with
    | None => (x01, [x00; x00; x00; x00], 0%Z)
    | Some a =>
        if bool_decide (FQDN a ≠ EmptyString) then
          (x03,
           byte_of_Z (Z.of_nat (String.length (FQDN a)))
             :: String.list_byte_of_string (FQDN a),
           Port a)
        else if bool_decide (length (IP a) = 16) then (x04, IP a, Port a)
        else (x01, take 4 (IP a ++ [x00; x00; x00; x00]), Port a)
    end in
  [socks5Version; rep; x00; atyp] ++ body
    ++ [byte_of_Z (port `div` 256); byte_of_Z port].

(** Modelled from the spec: [sendReply] is declared outside mysocks5.go. It
    writes the encoded reply to the client in one [Write] and returns the
    error of that write. *)
Definition sendReply_spec (rep : byte) (bnd : option AddrSpec) : M (option error) :=
  '(_, err) ← Write (encode_reply rep bnd);
  mret err.

Inductive dial_error : Type :=
  | DialRefused
  | DialNetworkUnreachable
  | DialHostUnreachable
  | DialOther (msg : string).

(** An upstream connection: its local address and what the upstream sends. *)
Record Upstream := { local : AddrSpec; up_data : list byte }.

(** The outcome of dialling each destination. *)
Definition Network := AddrSpec → Upstream + dial_error.

Definition reply_of_dial_error (e : dial_error) : byte :=
  match e with
  | DialRefused => connectionRefused
  | DialNetworkUnreachable => networkUnreachable
  | DialHostUnreachable => hostUnreachable
  | DialOther _ => serverFailure
  end.

(** Dialling a destination, and the relay between the client and an
    upstream connection: the two directions are recorded one after the other,
    each with all the bytes its side has to send. *)
Definition dial (net : Network) (dst : AddrSpec) : M (Upstream + dial_error) :=
  λ st, (net dst, record (EvDial dst) st).

Definition relay (up : Upstream) : M unit :=
  λ st,
    (tt,
     record (EvRelay UpstreamToClient (up_data up))
       (record (EvRelay ClientToUpstream (stream (get_reader st))) st)).

(** Modelled from the spec: [handleRequest] is declared outside mysocks5.go.
    Section 4.4: for CONNECT, dial the destination; on success send a success
    reply with the local address of the new connection and then relay; on
    failure send the reply that classifies the dial error. For every other
    command send command-not-supported. *)
Definition handleRequest_spec (net : Network) (s : Server) (q : Request)
  : M (option error) :=
  match Command q with
  | CONNECT =>
      target ← dial net (DestAddr q);
      match target with
      | inr de =>
          _ ← call_sendReply sendReply_spec (reply_of_dial_error de) None;
          mret (Some (Errorf "Connect failed: %v" (VBytes [])))
      | inl up =>
          err ← call_sendReply sendReply_spec successReply (Some (local up));
          match err with
          | Some e => mret (Some (Errorf "Failed to send reply: %v" (VErr e)))
          | None => _ ← relay up; mret None
          end
      end
  | _ =>
      _ ← call_sendReply sendReply_spec commandNotSupported None;
      mret (Some (Errorf "Unsupported command: %v" (VBytes [])))
  end.

(** ** What is observed of a session *)

(** The handshake of a session: the statements of [ServeConn] from the read of
    the version byte up to the return of [needNoAuth], without the logging. *)
Definition handshake : M (option error) :=
  let version := [x00] in
  '(bs, err) ← reading (bufio_Read (length version));
  match err with
  | Some e => mret (Some e)
  | None =>
      let version := fill version bs in
      if negb (Byte.eqb (default x00 (head version)) socks5Version) then
        mret (Some (Errorf "Unsupported SOCKS version: %v" (VBytes version)))
      else needNoAuth
  end.

Definition is_reply (e : event) : bool :=
  match e with EvSendReply _ _ _ => true | _ => false end.

Definition is_relay (e : event) : bool :=
  match e with EvRelay _ _ => true | _ => false end.

Definition is_write (e : event) : bool :=
  match e with EvWrite _ _ _ => true | _ => false end.

(** The number of replies sent or attempted: the calls of [sendReply]. *)
Definition replies (tr : list event) : nat := length (filter is_reply tr).

(** No byte is relayed before a success reply was sent without error: [ok]
    tells whether one was sent before the trace starts. *)
Fixpoint relay_after_success (ok : bool) (tr : list event) : bool :=
  match tr with
  | [] => true
  | EvSendReply rep _ None :: tr' =>
      relay_after_success (ok || Byte.eqb rep successReply) tr'
  | EvRelay _ _ :: tr' => ok && relay_after_success ok tr'
  | _ :: tr' => relay_after_success ok tr'
  end.

(** The outcome of decoding for which [ServeConn] goes on to a reply: a
    request, or the failure [unrecognizedAddrType]. *)
Definition leads_to_reply (res : Request + error) : bool :=
  match res with
  | inl _ => true
  | inr e => is_unrecognizedAddrType e
  end.

(** The request as [ServeConn] hands it to [handleRequest] on a connection
    whose remote address is [a]: the assignment to [request.RemoteAddr] under
    the type assertion of [conn.RemoteAddr()] to a pointer to [net.TCPAddr]. *)
Definition with_client (a : Addr) (q : Request) : Request :=
  match a with
  | TCPAddr ip port _ =>
      set_RemoteAddr (Some {| FQDN := EmptyString; IP := ip; Port := port |}) q
  | _ => q
  end.

(** The method count and all the method bytes it announces are in the
    stream [s]. *)
Definition method_region_complete (s : list byte) : bool :=
  match s with
  | [] => false
  | n :: ms => bool_decide (Byte.to_nat n ≤ length ms)
  end.

(** The error [io.ReadAtLeast] returns on a stream [s] that is too short and
    ends with [e]: [io.ErrUnexpectedEOF] in place of [io.EOF] once a byte was
    read. *)
Definition short_read_error (s : list byte) (e : error) : error :=
  if bool_decide (0 < length s) && is_EOF e then ErrUnexpectedEOF else e.

(** An operation that is neither a reply nor a relay. *)
Definition quiet (e : event) : bool := negb (is_reply e || is_relay e).

(** ** Sessions to run

    A client that sends [chunks] and then ends its stream with [e], on a
    connection whose writes go as [ws] says and whose remote address is [a];
    a server; and [ServeConn] with the collaborators of the spec. *)
Definition client (chunks : list (list byte)) (e : error)
    (ws : list wr_outcome) (a : Addr) : Conn :=
  {| inb := {| pending := omap chunk_of chunks; rd_err := e |};
     wr_script := ws; sent := []; closed := false; remote := a |}.

Definition a_server : Server := {| config := 1%positive |}.

Definition ServeConn_spec (net : Network) : Server → Conn → option error * State :=
  ServeConn NewRequest_spec sendReply_spec (handleRequest_spec net).

(** Every dial is refused; every dial reaches an upstream that sends "AB". *)
Definition refusing : Network := λ _, inr DialRefused.

Definition reaching : Network := λ _,
  inl {| local := {| FQDN := EmptyString; IP := [x7f; x00; x00; x01]; Port := 4242 |};
         up_data := [x41; x42] |}.

(** The greeting 05 01 00, and the request CONNECT 127.0.0.1:80. *)
Definition greeting : list byte := [x05; x01; x00].

Definition connect_request : list byte :=
  [x05; x01; x00; x01; x7f; x00; x00; x01; x00; x50].

Definition tcp_client : Addr := TCPAddr [x0a; x00; x00; x01] 40000 EmptyString.

(** ** [Serve] and [ListenAndServe] *)

(** A listener: [l k] is what the call number [k] of [l.Accept()] returns, a
    connection or an error. *)
Definition Listener : Type := nat → Conn + error.

(** What is printed on standard output: a format and its argument. *)
Definition printed : Type := string * string.

Section Serving.

Variable NewRequest : Reader → (Request + error) * Reader.
Variable sendReply : byte → option AddrSpec → M (option error).
Variable handleRequest : Server → Request → M (option error).

(** The loop of [Serve]: accept, return the error of a failed [Accept],
    otherwise start a session and go on. [k] counts the calls of [Accept] so
    far. A session runs in a goroutine of its own and on a connection of its
    own; it is recorded in [started] by what [ServeConn] does on that
    connection, and the value [ServeConn] returns is dropped. The result is
    [None] when the loop has not returned after [fuel] rounds. *)
Fixpoint Serve_loop (fuel : nat) (s : Server) (l : Listener) (k : nat)
    (started : list (option error * State))
  : option (error * list (option error * State)) :=
  match fuel with
  | 0 => None
  | S fuel' =>
      match l k with
      | inr err => Some (err, started)
      | inl conn =>
          Serve_loop fuel' s l (S k)
            (started ++ [ServeConn NewRequest sendReply handleRequest s conn])
      end
  end.

(** [s.Serve(l)] *)
Definition Serve (fuel : nat) (s : Server) (l : Listener)
  : option (error * list (option error * State)) :=
  Serve_loop fuel s l 0 [].

(** [s.ListenAndServe(network, addr)]: [net_Listen] is [net.Listen]. The
    result is what was printed, and what [ListenAndServe] returned with the
    sessions it started, or [None] when it has not returned. The format is
    spelt as in the source. *)
Definition ListenAndServe (net_Listen : string → string → Listener + error)
    (fuel : nat) (s : Server) (network addr : string)
  : list printed * option (error * list (option error * State)) :=
  match net_Listen network addr with
  | inr err => ([], Some (err, []))
  | inl l => ([("listening to %v\n", addr)], Serve fuel s l)
  end.

End Serving.

(** Two states agree when the same bytes are still to come, ending with the
    same error, and the same was written and recorded so far; how the bytes
    are split between the buffer and the segments of the connection does not
    count. *)
Definition agree (st1 st2 : State) : Prop :=
  stream (get_reader st1) = stream (get_reader st2) ∧
  rd_err (inb (conn st1)) = rd_err (inb (conn st2)) ∧
  wr_script (conn st1) = wr_script (conn st2) ∧
  sent (conn st1) = sent (conn st2) ∧
  trace st1 = trace st2.

(** * Properties *)

(** ** Readers *)

#[local] Arguments chunk_bytes : simpl never.

Lemma chunk_of_bytes (p : list byte) :
  from_option chunk_bytes [] (chunk_of p) = p.
Proof. by destruct p. Qed.

(** A read of the connection takes a prefix of what is still to come, and
    fails exactly when nothing is. *)
Lemma conn_Read_spec (k : nat) (i : Inbound) :
  ∃ bs err i',
    conn_Read k i = (bs, err, i') ∧
    bs ++ stream_of i' = stream_of i ∧
    rd_err i' = rd_err i ∧
    length bs ≤ k ∧
    match err with
    | Some e => e = rd_err i ∧ bs = [] ∧ stream_of i = []
    | None => stream_of i ≠ [] ∧ (0 < k → bs ≠ [])
    end.
Proof.
  unfold conn_Read, stream_of. destruct i as [[|c cs] e]; cbn.
  - eexists _, _, _. split; [done|]. cbn. repeat split; lia.
  - eexists _, _, _. split; [done|]. cbn. repeat split.
    + pose proof (chunk_of_bytes (drop k (chunk_bytes c))) as Hc.
      destruct (chunk_of (drop k (chunk_bytes c))) as [c'|]; cbn in *.
      * by rewrite Hc, (assoc_L (++)), take_drop.
      * by rewrite <- (take_drop k (chunk_bytes c)) at 2; rewrite <- Hc, app_nil_r.
    + rewrite length_take. lia.
    + by destruct c.
    + intros Hk. destruct c as [b t], k; [lia|done].
Qed.

Lemma take_drop_app {A} (k : nat) (l x : list A) :
  take k l ++ drop k l ++ x = l ++ x.
Proof. by rewrite (assoc_L (++)), take_drop. Qed.

Lemma bufio_Read_spec (k : nat) (r : Reader) :
  ∃ bs err r',
    bufio_Read k r = (bs, err, r') ∧
    bs ++ stream r' = stream r ∧
    rd_err (src r') = rd_err (src r) ∧
    length bs ≤ k ∧
    match err with
    | Some e => e = rd_err (src r) ∧ bs = [] ∧ stream r = []
    | None => 0 < k → stream r ≠ [] ∧ bs ≠ []
    end.
Proof.
  unfold bufio_Read, stream. destruct k as [|k].
  { eexists _, _, _. split; [done|]. split_and!; [done..|cbn; lia|lia]. }
  destruct r as [b i]; cbn [buf src].
  destruct b as [|b0 b].
  - destruct (conn_Read_spec (S k) i) as (bs & err & i' & -> & Hs & He & Hl & H).
    destruct (conn_Read_spec defaultBufSize i)
      as (bs' & err' & i'' & -> & Hs' & He' & Hl' & H').
    case_decide.
    + eexists _, _, _. split; [done|]. cbn [buf src app].
      split_and!; [done..|].
      destruct err; [done|]. intros _. destruct H as [? H].
      split; [done|]. apply H; lia.
    + destruct bs' as [|b' bs'].
      * eexists _, _, _. split; [done|]. cbn [buf src app length].
        split_and!; [done|done|lia|].
        destruct err'; [done|]. destruct H' as [_ H']. exfalso.
        apply H'; [unfold defaultBufSize; lia|done].
      * eexists _, _, _. split; [done|]. cbn [buf src].
        rewrite take_drop_app, length_take.
        split_and!; [done|done|lia|].
        intros _. split; [|done].
        destruct err'; [by destruct H' as (_ & ? & _)|]. by destruct H'.
  - eexists _, _, _. split; [done|]. cbn [buf src].
    rewrite take_drop_app, length_take. split_and!; [done|done|lia|done].
Qed.

(** The loop of [io.ReadAtLeast] stops with enough bytes, or with the error
    that ends the stream and everything that came before it. *)
Lemma ReadAtLeast_loop_spec (fuel need room : nat) (acc : list byte) (r : Reader) :
  need ≤ fuel → need ≤ room →
  ∃ bs err r',
    ReadAtLeast_loop fuel need room acc r = (acc ++ bs, err, r') ∧
    bs ++ stream r' = stream r ∧
    rd_err (src r') = rd_err (src r) ∧
    length bs ≤ room ∧
    match err with
    | Some e => e = rd_err (src r) ∧ length bs < need ∧ stream r' = []
    | None => need ≤ length bs
    end.
Proof.
  revert need room acc r.
  induction fuel as [|fuel IH]; intros need room acc r Hf Hr.
  { exists [], None, r. rewrite app_nil_r. cbn. split_and!; [done..|lia|lia]. }
  destruct need as [|need].
  { exists [], None, r. rewrite app_nil_r. cbn. split_and!; [done..|lia|lia]. }
  cbn [ReadAtLeast_loop].
  destruct (bufio_Read_spec room r) as (bs & err & r1 & -> & Hs & He & Hl & H).
  destruct err as [e|].
  - destruct H as (-> & -> & Hnil). exists [], (Some (rd_err (src r))), r1.
    rewrite Hnil in Hs. cbn in Hs. cbn [length].
    split_and!; [done|by rewrite Hnil|done|lia|done|lia|done].
  - destruct H as [_ Hne]; [lia|].
    assert (0 < length bs) by (destruct bs; [done|cbn; lia]).
    destruct (IH (S need - length bs) (room - length bs) (acc ++ bs) r1)
      as (bs2 & err2 & r2 & -> & Hs2 & He2 & Hl2 & H2); [lia..|].
    exists (bs ++ bs2), err2, r2. rewrite length_app.
    split_and!.
    + by rewrite (assoc_L (++)).
    + by rewrite <- Hs, <- Hs2, (assoc_L (++)).
    + congruence.
    + lia.
    + destruct err2 as [e2|]; [|lia].
      destruct H2 as (-> & ? & ?). split_and!; [done|lia|done].
Qed.

(** Fuel beyond [need] changes nothing: the loop has returned by then. *)
Lemma ReadAtLeast_loop_fuel (fuel fuel' need room : nat) (acc : list byte) (r : Reader) :
  need ≤ fuel → need ≤ fuel' → need ≤ room →
  ReadAtLeast_loop fuel need room acc r = ReadAtLeast_loop fuel' need room acc r.
Proof.
  revert fuel' need room acc r.
  induction fuel as [|fuel IH]; intros fuel' need room acc r Hf Hf' Hr.
  { assert (need = 0) as -> by lia. by destruct fuel'. }
  destruct fuel' as [|fuel'].
  { assert (need = 0) as -> by lia. done. }
  destruct need as [|need]; [done|]. cbn [ReadAtLeast_loop].
  destruct (bufio_Read_spec room r) as (bs & err & r1 & -> & Hs & He & Hl & H).
  destruct err as [e|]; [done|].
  destruct H as [_ Hne]; [lia|].
  assert (0 < length bs) by (destruct bs; [done|cbn; lia]).
  apply IH; lia.
Qed.

(** [io.ReadAtLeast] into a buffer of exactly [k] bytes takes the next [k]
    bytes of the stream and nothing more; when fewer are left it takes them
    all and fails. *)
Lemma ReadAtLeast_exact (r : Reader) (k : nat) :
  ∃ r',
    rd_err (src r') = rd_err (src r) ∧
    if decide (k ≤ length (stream r)) then
      ReadAtLeast r k k = (take k (stream r), None, r') ∧
      stream r' = drop k (stream r)
    else
      ReadAtLeast r k k
        = (stream r, Some (short_read_error (stream r) (rd_err (src r))), r') ∧
      stream r' = [].
Proof.
  unfold ReadAtLeast. rewrite decide_False by lia.
  destruct (ReadAtLeast_loop_spec k k k [] r)
    as (bs & err & r' & -> & Hs & He & Hl & H); [done..|].
  exists r'. split; [done|]. cbn [app].
  destruct err as [e|].
  - destruct H as (-> & Hlt & Hnil). rewrite Hnil, app_nil_r in Hs. subst bs.
    rewrite !decide_False by lia. unfold short_read_error.
    by destruct (_ && _).
  - assert (length bs = k) as Hk by lia.
    rewrite !decide_True by (rewrite <- ?Hs, ?length_app; lia).
    rewrite <- Hs, <- Hk. by rewrite take_app_length, drop_app_length.
Qed.

Lemma ReadAtLeast_enough (r : Reader) (k : nat) (p rest : list byte) :
  stream r = p ++ rest → length p = k →
  ∃ r', ReadAtLeast r k k = (p, None, r') ∧ stream r' = rest ∧
        rd_err (src r') = rd_err (src r).
Proof.
  intros Hs Hk. destruct (ReadAtLeast_exact r k) as (r' & He & H).
  rewrite decide_True in H by (rewrite Hs, length_app; lia).
  destruct H as [HR Hr']. exists r'. rewrite HR, Hr', Hs, <- Hk.
  by rewrite take_app_length, drop_app_length.
Qed.

(** One byte through the buffered reader. *)
Lemma bufio_Read_one (r : Reader) :
  ∃ r',
    rd_err (src r') = rd_err (src r) ∧
    match stream r with
    | [] => bufio_Read 1 r = ([], Some (rd_err (src r)), r') ∧ stream r' = []
    | b :: rest => bufio_Read 1 r = ([b], None, r') ∧ stream r' = rest
    end.
Proof.
  destruct (bufio_Read_spec 1 r) as (bs & err & r' & -> & Hs & He & Hl & H).
  exists r'. split; [done|]. destruct err as [e|].
  - destruct H as (-> & -> & Hnil). rewrite Hnil in Hs |- *. done.
  - destruct H as [Hne Hbs]; [lia|].
    destruct bs as [|b [|??]]; [done| |cbn in Hl; lia].
    rewrite <- Hs. done.
Qed.

(** ** Steps of a session *)

Ltac run :=
  unfold mbind, M_bind, bind, mret, M_ret, ret, reading, Printf,
    RemoteAddr_of_conn;
  cbn [length fst snd].

Lemma get_put_reader (r : Reader) (st : State) : get_reader (put_reader r st) = r.
Proof. by destruct r. Qed.

(** The paths through the body of [ServeConn]: a failed handshake is logged
    and returned; after a handshake the request is decoded, and the outcome
    decides between an immediate return, a reply followed by a return, and
    the call of [handleRequest]. *)
Lemma ServeConn_body_paths NewRequest sendReply handleRequest (s : Server) (st : State) :
  let body := ServeConn_body NewRequest sendReply handleRequest s st in
  match handshake st with
  | (Some e, st1) => ∃ format arg, body = (Some e, record (EvLog format arg) st1)
  | (None, st1) =>
      let '(res, r2) := NewRequest (get_reader st1) in
      let st2 := put_reader r2 st1 in
      match res with
      | inr err =>
          if is_unrecognizedAddrType err then
            let '(err', st3) := call_sendReply sendReply addrTypeNotSupported None st2 in
            body =
              (Some match err' with
                    | Some e' => Errorf "Failed to send reply: %v" (VErr e')
                    | None => Errorf "Failed to read destination address: %v" (VErr err)
                    end, st3)
          else
            body = (Some (Errorf "Failed to read destination address: %v" (VErr err)), st2)
      | inl q =>
          let '(err, st3) :=
            call_handleRequest handleRequest s (with_client (remote (conn st2)) q) st2 in
          body =
            match err with
            | Some e =>
                let err := Errorf "Failed to handle request: %v" (VErr e) in
                (Some err, record (EvLog "[ERR] socks: %v" (VErr err)) st3)
            | None => (None, st3)
            end
      end
  end.
Proof.
  intros body. subst body. unfold ServeConn_body, handshake. run.
  destruct (bufio_Read 1 (get_reader st)) as [[bs [e|]] r1]; run;
    [by eexists _, _|].
  destruct (negb _); run; [by eexists _, _|].
  destruct (needNoAuth _) as [[e|] st1]; run; [by eexists _, _|].
  destruct (NewRequest (get_reader st1)) as [[q|err] r2]; run.
  - unfold with_client.
    destruct (remote _), (call_handleRequest _ _ _ _) as [[e|] st3]; done.
  - destruct (is_unrecognizedAddrType err); run; [|done].
    destruct (call_sendReply _ _ _ _) as [[e'|] st3]; done.
Qed.

Lemma stream_get_reader_init (c : Conn) :
  stream (get_reader (init c)) = stream_of (inb c).
Proof. done. Qed.

Lemma stream_get_put_reader (r : Reader) (st : State) :
  stream (get_reader (put_reader r st)) = stream r.
Proof. by rewrite get_put_reader. Qed.

Lemma put_put_reader (r r' : Reader) (st : State) :
  put_reader r' (put_reader r st) = put_reader r' st.
Proof. done. Qed.

(** A write is recorded, delivers a prefix of its bytes, and touches nothing
    else. *)
Lemma Write_spec (p : list byte) (st : State) :
  ∃ n err,
    Write p st =
      ((n, err),
       {| conn := {| inb := inb (conn st); wr_script := tail (wr_script (conn st));
                     sent := sent (conn st) ++ take n p;
                     closed := closed (conn st); remote := remote (conn st) |};
          rbuf := rbuf st;
          trace := trace st ++ [EvWrite p n err] |}) ∧
    (err = None → n = length p) ∧
    (err = None ↔ ∀ k e, head (wr_script (conn st)) ≠ Some (WrFail k e)).
Proof.
  unfold Write. destruct (wr_script (conn st)) as [|[|k e] ws]; cbn.
  - eexists _, _. split_and!; [done..|]. naive_solver.
  - eexists _, _. split_and!; [done..|]. naive_solver.
  - eexists _, _. split_and!; [done..|]. naive_solver.
Qed.

(** [needNoAuth] by what the stream holds. *)
Lemma needNoAuth_spec (st : State) :
  let e := rd_err (inb (conn st)) in
  ∃ r',
    rd_err (src r') = e ∧
    match stream (get_reader st) with
    | [] => needNoAuth st = (Some e, put_reader r' st) ∧ stream r' = []
    | n :: ms =>
        if decide (Byte.to_nat n ≤ length ms) then
          needNoAuth st =
            (let '(_, err, st') := Write [socks5Version; noAuth] (put_reader r' st) in
             (err, st')) ∧
          stream r' = drop (Byte.to_nat n) ms
        else
          needNoAuth st = (Some (short_read_error ms e), put_reader r' st) ∧
          stream r' = []
    end.
Proof.
  intros e. subst e. unfold needNoAuth. run.
  destruct (bufio_Read_one (get_reader st)) as (r1 & He1 & H1).
  destruct (stream (get_reader st)) as [|n ms].
  - destruct H1 as [-> Hs1]. exists r1. done.
  - destruct H1 as [-> Hs1]. run.
    change (default "000"%byte (head (fill ["000"%byte] [n]))) with n.
    rewrite length_replicate, get_put_reader.
    destruct (ReadAtLeast_exact r1 (Byte.to_nat n)) as (r2 & He2 & H2).
    rewrite Hs1, He1 in H2.
    case_decide; destruct H2 as [-> Hs2]; run; rewrite put_put_reader;
      exists r2; (split; [by rewrite He2, He1|]); [|done].
    split; [|done]. by destruct (Write _ _) as [[k err] st'].
Qed.

(** The handshake by what the stream holds. *)
Lemma handshake_spec (st : State) :
  let e := rd_err (inb (conn st)) in
  ∃ r',
    rd_err (src r') = e ∧
    match stream (get_reader st) with
    | [] => handshake st = (Some e, put_reader r' st) ∧ stream r' = []
    | b :: rest =>
        stream r' = rest ∧
        handshake st =
          if Byte.eqb b socks5Version then needNoAuth (put_reader r' st)
          else (Some (Errorf "Unsupported SOCKS version: %v" (VBytes [b])),
                put_reader r' st)
    end.
Proof.
  intros e. subst e. unfold handshake. run.
  destruct (bufio_Read_one (get_reader st)) as (r1 & He1 & H1).
  exists r1. split; [done|].
  destruct (stream (get_reader st)) as [|b rest]; destruct H1 as [-> Hs1];
    [done|].
  split; [done|]. run.
  change (default "000"%byte (head (fill ["000"%byte] [b]))) with b.
  change (fill ["000"%byte] [b]) with [b].
  by destruct (Byte.eqb b socks5Version).
Qed.

Lemma call_sendReply_spec sendReply (rep : byte) (bnd : option AddrSpec) (st : State) :
  let res := sendReply rep bnd (fresh st) in
  call_sendReply sendReply rep bnd st =
    (res.1,
     {| conn := conn res.2; rbuf := rbuf res.2;
        trace := trace st ++ trace res.2 ++ [EvSendReply rep bnd res.1] |}).
Proof.
  unfold call_sendReply, extern, record. cbn.
  destruct (sendReply rep bnd (fresh st)) as [err st']. cbn.
  by rewrite (assoc_L (++)).
Qed.

Lemma call_handleRequest_spec handleRequest (s : Server) (q : Request) (st : State) :
  let res := handleRequest s q (fresh st) in
  call_handleRequest handleRequest s q st =
    (res.1,
     {| conn := conn res.2; rbuf := rbuf res.2;
        trace := trace st ++ EvHandleRequest q :: trace res.2 |}).
Proof.
  unfold call_handleRequest, extern, record. cbn.
  change (fresh _) with (fresh st).
  destruct (handleRequest s q (fresh st)) as [err st']. cbn.
  by rewrite <- (assoc_L (++)).
Qed.

(** [ServeConn] is its body followed by the deferred [Close]. *)
Lemma ServeConn_unfold NewRequest sendReply handleRequest (s : Server) (c : Conn) :
  ServeConn NewRequest sendReply handleRequest s c =
    let res := ServeConn_body NewRequest sendReply handleRequest s (init c) in
    (res.1, (Close res.2).2).
Proof.
  unfold ServeConn. run. by destruct (ServeConn_body _ _ _ _ _).
Qed.

Lemma trace_Close (st : State) : trace (Close st).2 = trace st ++ [EvClose].
Proof. done. Qed.

Lemma sent_Close (st : State) : sent (conn (Close st).2) = sent (conn st).
Proof. done. Qed.

Lemma closed_Close (st : State) : closed (conn (Close st).2) = true.
Proof. done. Qed.

(** Whatever the body of [ServeConn] does comes after the handshake. *)
Lemma ServeConn_body_trace NewRequest sendReply handleRequest (s : Server) (st : State) :
  ∃ evs,
    trace (ServeConn_body NewRequest sendReply handleRequest s st).2
      = trace (handshake st).2 ++ evs.
Proof.
  pose proof (ServeConn_body_paths NewRequest sendReply handleRequest s st) as H.
  cbv zeta in H. destruct (handshake st) as [[e|] st1]; cbn [snd].
  { destruct H as (f & a & ->). by eexists. }
  destruct (NewRequest (get_reader st1)) as [[q|err] r2].
  - rewrite call_handleRequest_spec in H. cbv zeta in H.
    destruct (handleRequest _ _ _) as [[e|] st3]; cbn [fst snd] in H; rewrite H;
      cbn; eexists; [by rewrite <- (assoc_L (++))|done].
  - destruct (is_unrecognizedAddrType err).
    + rewrite call_sendReply_spec in H. cbv zeta in H. rewrite H. by eexists.
    + rewrite H. exists []. by rewrite app_nil_r.
Qed.

(** ** The handshake *)

(** C7: [needNoAuth] writes once, the two bytes of the method selection, and
    only when the method count and all the method bytes it announces were
    read; when one of these reads fails it returns the read error, and has
    written nothing: the trace, the bytes sent and the connection's pending
    writes are as before. *)
Theorem needNoAuth_writes_once_after_reads (st : State) :
  let e := rd_err (inb (conn st)) in
  let res := needNoAuth st in
  if method_region_complete (stream (get_reader st)) then
    ∃ n,
      trace res.2 = trace st ++ [EvWrite [socks5Version; noAuth] n res.1] ∧
      sent (conn res.2) = sent (conn st) ++ take n [socks5Version; noAuth]
  else
    res.1 = Some match stream (get_reader st) with
                 | [] => e
                 | _ :: ms => short_read_error ms e
                 end ∧
    trace res.2 = trace st ∧
    sent (conn res.2) = sent (conn st) ∧
    wr_script (conn res.2) = wr_script (conn st).
Proof.
  intros e res. subst e res.
  destruct (needNoAuth_spec st) as (r' & He & H). unfold method_region_complete.
  destruct (stream (get_reader st)) as [|n ms].
  { destruct H as [-> _]. done. }
  destruct (decide (Byte.to_nat n ≤ length ms)) as [Hn|Hn].
  - rewrite bool_decide_eq_true_2 by done. destruct H as [-> _].
    destruct (Write_spec [socks5Version; noAuth] (put_reader r' st))
      as (k & err & -> & _). cbn. by exists k.
  - rewrite bool_decide_eq_false_2 by done. destruct H as [-> _]. done.
Qed.

(** C2: when the client sends the version 5, a method count and that many
    method bytes, whatever they are, the handshake makes one write, of the
    bytes 05 00, reads the method bytes and no byte after them, and succeeds
    when the write does; the session's trace starts with that write. *)
Theorem negotiator_replies_no_auth
    NewRequest sendReply handleRequest (s : Server) (c : Conn)
    (n : byte) (methods rest : list byte) :
  stream_of (inb c) = socks5Version :: n :: methods ++ rest →
  length methods = Byte.to_nat n →
  ∃ k err st1,
    handshake (init c) = (err, st1) ∧
    trace st1 = [EvWrite [x05; x00] k err] ∧
    sent (conn st1) = sent c ++ take k [x05; x00] ∧
    (err = None → k = 2) ∧
    stream (get_reader st1) = rest ∧
    ∃ evs,
      trace (ServeConn NewRequest sendReply handleRequest s c).2
        = EvWrite [x05; x00] k err :: evs.
Proof.
  intros Hs Hn.
  destruct (ServeConn_body_trace NewRequest sendReply handleRequest s (init c))
    as (evs & Hevs).
  rewrite ServeConn_unfold. cbv zeta. cbn [snd]. rewrite trace_Close, Hevs.
  clear Hevs.
  destruct (handshake_spec (init c)) as (r1 & He1 & H1).
  rewrite stream_get_reader_init, Hs in H1. destruct H1 as [Hs1 ->].
  change (Byte.eqb socks5Version socks5Version) with true. cbv iota.
  destruct (needNoAuth_spec (put_reader r1 (init c))) as (r2 & He2 & H2).
  rewrite stream_get_put_reader, Hs1 in H2.
  rewrite decide_True in H2 by (rewrite length_app; lia).
  destruct H2 as [-> Hs2]. rewrite put_put_reader.
  destruct (Write_spec [socks5Version; noAuth] (put_reader r2 (init c)))
    as (k & err & -> & Hk & _).
  exists k, err. eexists. split; [done|]. cbn.
  split_and!; [done|done|done| |by eexists].
  change (stream r2 = rest). by rewrite Hs2, <- Hn, drop_app_length.
Qed.

Lemma negotiator_replies_no_auth_witness :
  let c := {| inb := {| pending := [Chunk x05 [x02]; Chunk x00 [x02; x05; x01]];
                        rd_err := EOF |};
              wr_script := []; sent := []; closed := false;
              remote := TCPAddr [x0a; x00; x00; x01] 40000 EmptyString |} in
  ∃ k err st1,
    handshake (init c) = (err, st1) ∧
    trace st1 = [EvWrite [x05; x00] k err] ∧
    sent (conn st1) = sent c ++ take k [x05; x00] ∧
    (err = None → k = 2) ∧
    stream (get_reader st1) = [x05; x01] ∧
    ∃ evs,
      trace (ServeConn NewRequest_spec sendReply_spec
               (handleRequest_spec (λ _, inr DialRefused))
               {| config := 1%positive |} c).2
        = EvWrite [x05; x00] k err :: evs.
Proof.
  intros c.
  apply (negotiator_replies_no_auth _ _ _ _ c x02 [x00; x02] [x05; x01]);
    reflexivity.
Defined.

(** C4: when the first byte of the stream is not 5, [ServeConn] returns the
    unsupported-version error, logs it and closes the connection, and never
    calls [Write]: no byte is sent to the client. *)
Theorem ServeConn_unsupported_version
    NewRequest sendReply handleRequest (s : Server) (c : Conn)
    (b : byte) (rest : list byte) :
  stream_of (inb c) = b :: rest →
  b ≠ socks5Version →
  let err := Errorf "Unsupported SOCKS version: %v" (VBytes [b]) in
  let res := ServeConn NewRequest sendReply handleRequest s c in
  res.1 = Some err ∧
  trace res.2 = [EvLog "[ERR] socks: %v" (VErr err); EvClose] ∧
  sent (conn res.2) = sent c ∧
  closed (conn res.2) = true.
Proof.
  intros Hs Hb err res. subst err res.
  unfold ServeConn, ServeConn_body. run.
  destruct (bufio_Read_one (get_reader (init c))) as (r1 & He1 & H1).
  rewrite stream_get_reader_init, Hs in H1. destruct H1 as [-> _]. run.
  change (default "000"%byte (head (fill ["000"%byte] [b]))) with b.
  change (fill ["000"%byte] [b]) with [b].
  destruct (Byte.eqb b socks5Version) eqn:Hv.
  { by apply Byte.byte_dec_bl in Hv. }
  done.
Qed.

Lemma ServeConn_unsupported_version_witness :
  let c := {| inb := {| pending := [Chunk x04 [x01; x00]]; rd_err := EOF |};
              wr_script := []; sent := []; closed := false;
              remote := TCPAddr [x0a; x00; x00; x01] 40000 EmptyString |} in
  let err := Errorf "Unsupported SOCKS version: %v" (VBytes [x04]) in
  let res := ServeConn NewRequest_spec sendReply_spec
               (handleRequest_spec (λ _, inr DialRefused))
               {| config := 1%positive |} c in
  res.1 = Some err ∧
  trace res.2 = [EvLog "[ERR] socks: %v" (VErr err); EvClose] ∧
  sent (conn res.2) = sent c ∧
  closed (conn res.2) = true.
Proof.
  intros c.
  apply (ServeConn_unsupported_version _ _ _ _ c x04 [x01; x00]);
    [reflexivity|discriminate].
Defined.

(** C6: on every path through [ServeConn], whatever the client sends and
    whatever the functions it calls do, the last operation of the session is
    the close of the client connection, and the connection is closed when
    [ServeConn] returns. *)
Theorem ServeConn_always_closes
    NewRequest sendReply handleRequest (s : Server) (c : Conn) :
  let res := ServeConn NewRequest sendReply handleRequest s c in
  closed (conn res.2) = true ∧ last (trace res.2) = Some EvClose.
Proof.
  intros res. subst res. rewrite ServeConn_unfold. cbv zeta. cbn [snd].
  rewrite closed_Close, trace_Close, last_snoc. done.
Qed.

(** ** After the handshake *)

Lemma trace_put_reader (r : Reader) (st : State) :
  trace (put_reader r st) = trace st.
Proof. done. Qed.

(** What a handshake leaves behind: either nothing was written, and it
    failed, or the method selection was written once, and it succeeded
    exactly when that write did. *)
Lemma handshake_inv (st : State) :
  let res := handshake st in
  remote (conn res.2) = remote (conn st) ∧
  closed (conn res.2) = closed (conn st) ∧
  ((is_Some res.1 ∧ trace res.2 = trace st ∧ sent (conn res.2) = sent (conn st)) ∨
   (∃ n, trace res.2 = trace st ++ [EvWrite [x05; x00] n res.1] ∧
         sent (conn res.2) = sent (conn st) ++ take n [x05; x00] ∧
         (res.1 = None → n = 2))).
Proof.
  intros res. subst res.
  destruct (handshake_spec st) as (r1 & He1 & H1).
  destruct (stream (get_reader st)) as [|b rest].
  { destruct H1 as [-> _]. split_and!; [done..|]. left. by eauto. }
  destruct H1 as [_ ->]. destruct (Byte.eqb b socks5Version).
  2: { split_and!; [done..|]. left. by eauto. }
  destruct (needNoAuth_spec (put_reader r1 st)) as (r2 & He2 & H2).
  destruct (stream (get_reader (put_reader r1 st))) as [|n ms].
  { destruct H2 as [-> _]. split_and!; [done..|]. left. by eauto. }
  case_decide; destruct H2 as [-> _].
  2: { split_and!; [done..|]. left. by eauto. }
  destruct (Write_spec [socks5Version; noAuth] (put_reader r2 (put_reader r1 st)))
    as (k & err & -> & Hk & _).
  cbn. split_and!; [done..|]. right. exists k. done.
Qed.

Lemma handshake_ok (st st1 : State) :
  handshake st = (None, st1) →
  trace st1 = trace st ++ [EvWrite [x05; x00] 2 None] ∧
  sent (conn st1) = sent (conn st) ++ [x05; x00] ∧
  remote (conn st1) = remote (conn st) ∧
  closed (conn st1) = closed (conn st).
Proof.
  intros Hh. pose proof (handshake_inv st) as H. cbv zeta in H.
  rewrite Hh in H. cbn [fst snd] in H.
  destruct H as (Hr & Hc & [(Hs & _)|(n & Ht & Hsent & Hn)]).
  { by destruct Hs. }
  rewrite Hn in Ht, Hsent by done. done.
Qed.

(** C5: after a handshake, when [NewRequest] fails with an error that is not
    [unrecognizedAddrType], [ServeConn] returns that error, wrapped, and
    closes the connection; it calls neither [sendReply] nor [Write]: the
    session consists of the method selection and the close. *)
Theorem ServeConn_decode_failure_no_reply
    NewRequest sendReply handleRequest (s : Server) (c : Conn) (e : error) :
  let hs := handshake (init c) in
  hs.1 = None →
  (NewRequest (get_reader hs.2)).1 = inr e →
  is_unrecognizedAddrType e = false →
  let res := ServeConn NewRequest sendReply handleRequest s c in
  res.1 = Some (Errorf "Failed to read destination address: %v" (VErr e)) ∧
  trace res.2 = [EvWrite [x05; x00] 2 None; EvClose] ∧
  sent (conn res.2) = sent c ++ [x05; x00] ∧
  closed (conn res.2) = true.
Proof.
  intros hs Hh Hd He res. subst hs res.
  rewrite ServeConn_unfold. cbv zeta. cbn [fst snd].
  rewrite closed_Close, trace_Close, sent_Close.
  pose proof (ServeConn_body_paths NewRequest sendReply handleRequest s (init c)) as H.
  cbv zeta in H. destruct (handshake (init c)) as [err st1] eqn:Hhs.
  cbn [fst snd] in *. subst err.
  destruct (handshake_ok _ _ Hhs) as (Ht & Hs & _).
  destruct (NewRequest (get_reader st1)) as [res r2]. cbn [fst] in Hd. subst res.
  rewrite He in H. rewrite H. cbn. by rewrite Ht, Hs.
Qed.

(** C10: after a handshake, when [NewRequest] fails with
    [unrecognizedAddrType], [ServeConn] calls [sendReply] with the code
    address-type-not-supported and then returns an error in every case: the
    decode failure, wrapped, when [sendReply] returned nil, and the failure of
    [sendReply], wrapped, in place of it otherwise. *)
Theorem ServeConn_unrecognized_addr_type_error
    NewRequest sendReply handleRequest (s : Server) (c : Conn) :
  let hs := handshake (init c) in
  let dec := NewRequest (get_reader hs.2) in
  hs.1 = None →
  dec.1 = inr unrecognizedAddrType →
  let sent_reply :=
    sendReply addrTypeNotSupported None (fresh (put_reader dec.2 hs.2)) in
  let res := ServeConn NewRequest sendReply handleRequest s c in
  res.1 =
    Some match sent_reply.1 with
         | Some e' => Errorf "Failed to send reply: %v" (VErr e')
         | None =>
             Errorf "Failed to read destination address: %v"
                    (VErr unrecognizedAddrType)
         end ∧
  trace res.2 =
    EvWrite [x05; x00] 2 None
      :: trace sent_reply.2
      ++ [EvSendReply addrTypeNotSupported None sent_reply.1; EvClose].
Proof.
  intros hs dec Hh Hd sent_reply res. subst hs dec sent_reply res.
  rewrite ServeConn_unfold. cbv zeta. cbn [fst snd]. rewrite trace_Close.
  pose proof (ServeConn_body_paths NewRequest sendReply handleRequest s (init c)) as H.
  cbv zeta in H. destruct (handshake (init c)) as [err st1] eqn:Hhs.
  cbn [fst snd] in *. subst err.
  destruct (handshake_ok _ _ Hhs) as (Ht & _).
  destruct (NewRequest (get_reader st1)) as [res r2]. cbn [fst snd] in *. subst res.
  cbn [is_unrecognizedAddrType] in H. rewrite call_sendReply_spec in H.
  cbv zeta in H. rewrite H. cbn [fst snd trace]. split; [done|].
  rewrite trace_put_reader, Ht. cbn. by rewrite <- (assoc_L (++)).
Qed.

(** C8, as the code has it: after a handshake and a successful decode,
    [ServeConn] hands to [handleRequest] the request with [RemoteAddr] set to
    the IP address and port of the connection's remote address when that
    address is a TCP address, and the request as [NewRequest] returned it on
    any other connection; the outcome of the session is that of
    [handleRequest] on this request. *)
Theorem ServeConn_attaches_tcp_remote
    NewRequest sendReply handleRequest (s : Server) (c : Conn) (q : Request) :
  let hs := handshake (init c) in
  let dec := NewRequest (get_reader hs.2) in
  hs.1 = None →
  dec.1 = inl q →
  let handed := with_client (remote c) q in
  let handled := handleRequest s handed (fresh (put_reader dec.2 hs.2)) in
  let res := ServeConn NewRequest sendReply handleRequest s c in
  (∀ ip port zone,
     remote c = TCPAddr ip port zone →
     handed = set_RemoteAddr (Some {| FQDN := EmptyString; IP := ip; Port := port |}) q) ∧
  ((∀ ip port zone, remote c ≠ TCPAddr ip port zone) → handed = q) ∧
  (∃ evs,
     trace res.2 =
       EvWrite [x05; x00] 2 None :: EvHandleRequest handed
         :: trace handled.2 ++ evs ++ [EvClose]) ∧
  res.1 =
    match handled.1 with
    | Some e => Some (Errorf "Failed to handle request: %v" (VErr e))
    | None => None
    end.
Proof.
  intros hs dec Hh Hd handed handled res. subst hs dec handed handled res.
  split; [by intros ip port zone ->|].
  split.
  { intros Hne. destruct (remote c) as [ip port zone| | |] eqn:Hr; [|done..].
    by destruct (Hne ip port zone). }
  rewrite ServeConn_unfold. cbv zeta. cbn [fst snd]. rewrite trace_Close.
  pose proof (ServeConn_body_paths NewRequest sendReply handleRequest s (init c)) as H.
  cbv zeta in H. destruct (handshake (init c)) as [err st1] eqn:Hhs.
  cbn [fst snd] in *. subst err.
  destruct (handshake_ok _ _ Hhs) as (Ht & _ & Hr & _).
  destruct (NewRequest (get_reader st1)) as [res r2]. cbn [fst snd] in *. subst res.
  rewrite call_handleRequest_spec in H. cbv zeta in H.
  change (remote (conn (put_reader r2 st1))) with (remote (conn st1)) in H.
  rewrite Hr in H. change (remote (conn (init c))) with (remote c) in H.
  destruct (handleRequest s _ _) as [[e|] st3]; cbn [fst snd] in *; rewrite H;
    cbn [fst snd trace record]; rewrite trace_put_reader, Ht; (split; [|done]).
  - eexists [_]. cbn. by rewrite <- !(assoc_L (++)).
  - exists []. done.
Qed.

(** ** Sessions with the collaborators of the spec *)

Lemma ServeConn_decode_failure_no_reply_witness :
  let c := client [[x05; x00]] EOF [] tcp_client in
  let res := ServeConn_spec refusing a_server c in
  res.1 = Some (Errorf "Failed to read destination address: %v" (VErr EOF)) ∧
  trace res.2 = [EvWrite [x05; x00] 2 None; EvClose] ∧
  sent (conn res.2) = sent c ++ [x05; x00] ∧
  closed (conn res.2) = true.
Proof.
  intros c.
  apply (ServeConn_decode_failure_no_reply NewRequest_spec sendReply_spec
           (handleRequest_spec refusing) a_server c EOF);
    vm_compute; reflexivity.
Defined.

Lemma ServeConn_unrecognized_addr_type_error_witness :
  let c := client [greeting; [x05; x01; x00; x09; x00]] EOF
             [WrOk; WrFail 3 (OpError "broken pipe")] tcp_client in
  let res := ServeConn_spec refusing a_server c in
  res.1 = Some (Errorf "Failed to send reply: %v" (VErr (OpError "broken pipe"))) ∧
  trace res.2 =
    [EvWrite [x05; x00] 2 None;
     EvWrite [x05; x08; x00; x01; x00; x00; x00; x00; x00; x00] 3
       (Some (OpError "broken pipe"));
     EvSendReply addrTypeNotSupported None (Some (OpError "broken pipe"));
     EvClose].
Proof.
  intros c.
  apply (ServeConn_unrecognized_addr_type_error NewRequest_spec sendReply_spec
           (handleRequest_spec refusing) a_server c);
    vm_compute; reflexivity.
Defined.

(** The same session when the reply is written: the error is the decode
    failure. *)
Example unrecognized_addr_type_reply_written :
  let c := client [greeting; [x05; x01; x00; x09; x00]] EOF [] tcp_client in
  (ServeConn_spec refusing a_server c).1 =
    Some (Errorf "Failed to read destination address: %v"
                 (VErr unrecognizedAddrType)).
Proof. vm_compute. reflexivity. Qed.

Lemma ServeConn_attaches_tcp_remote_witness :
  let c := client [greeting; connect_request] EOF [] tcp_client in
  let q := {| Command := CONNECT;
              DestAddr := {| FQDN := EmptyString; IP := [x7f; x00; x00; x01]; Port := 80 |};
              RemoteAddr := None |} in
  let handed := with_client (remote c) q in
  let res := ServeConn_spec refusing a_server c in
  (∀ ip port zone,
     remote c = TCPAddr ip port zone →
     handed = set_RemoteAddr (Some {| FQDN := EmptyString; IP := ip; Port := port |}) q) ∧
  ((∀ ip port zone, remote c ≠ TCPAddr ip port zone) → handed = q) ∧
  (∃ evs,
     trace res.2 =
       EvWrite [x05; x00] 2 None :: EvHandleRequest handed
         :: [EvDial (DestAddr q);
             EvWrite [x05; x05; x00; x01; x00; x00; x00; x00; x00; x00] 10 None;
             EvSendReply connectionRefused None None]
         ++ evs ++ [EvClose]) ∧
  res.1 =
    Some (Errorf "Failed to handle request: %v"
            (VErr (Errorf "Connect failed: %v" (VBytes [])))).
Proof.
  intros c q.
  apply (ServeConn_attaches_tcp_remote NewRequest_spec sendReply_spec
           (handleRequest_spec refusing) a_server c q);
    vm_compute; reflexivity.
Defined.

(** C8 as stated fails on a connection that is not a TCP connection: the
    remote address of this one has an IP address and a port, and the request
    that reaches [handleRequest] has no [RemoteAddr]; so has the request of a
    session over a Unix socket. *)
Lemma remote_addr_not_attached_without_tcp :
  let q := {| Command := CONNECT;
              DestAddr := {| FQDN := EmptyString; IP := [x7f; x00; x00; x01]; Port := 80 |};
              RemoteAddr := None |} in
  let udp := client [greeting; connect_request] EOF []
               (UDPAddr [x0a; x00; x00; x01] 40000 EmptyString) in
  let unix := client [greeting; connect_request] EOF []
               (UnixAddr "/run/socks.sock" "unix") in
  trace (ServeConn_spec refusing a_server udp).2 !! 1 = Some (EvHandleRequest q) ∧
  trace (ServeConn_spec refusing a_server unix).2 !! 1 = Some (EvHandleRequest q) ∧
  RemoteAddr q = None.
Proof. vm_compute. done. Qed.

(** ** The request decoder of the spec *)

Lemma byte_eqb_ne (a b : byte) : a ≠ b → Byte.eqb a b = false.
Proof.
  intros Hne. destruct (Byte.eqb a b) eqn:H; [|done].
  by apply Byte.byte_dec_bl in H.
Qed.

Lemma read_byte_spec (r : Reader) (b : byte) (rest : list byte) :
  stream r = b :: rest →
  ∃ r', read_byte r = (inl b, r') ∧ stream r' = rest.
Proof.
  intros Hs. unfold read_byte, read_exact, mbind, Dec_bind, mret, Dec_ret.
  destruct (ReadAtLeast_enough r 1 [b] rest) as (r' & -> & Hs' & _); [done..|].
  by exists r'.
Qed.

(** A request header with an address type other than 1, 3 and 4 fails to
    decode with [unrecognizedAddrType], whatever the command, and the decoder
    has read the four bytes of the header. *)
Lemma NewRequest_spec_unrecognized (r : Reader) (cmd rsv atyp : byte) (rest : list byte) :
  stream r = socks5Version :: cmd :: rsv :: atyp :: rest →
  atyp ≠ x01 → atyp ≠ x03 → atyp ≠ x04 →
  ∃ r', NewRequest_spec r = (inr unrecognizedAddrType, r') ∧ stream r' = rest.
Proof.
  intros Hs H1 H3 H4. unfold NewRequest_spec.
  destruct (read_byte_spec r _ _ Hs) as (r1 & E1 & Hs1).
  destruct (read_byte_spec r1 _ _ Hs1) as (r2 & E2 & Hs2).
  destruct (read_byte_spec r2 _ _ Hs2) as (r3 & E3 & Hs3).
  destruct (read_byte_spec r3 _ _ Hs3) as (r4 & E4 & Hs4).
  unfold mbind at 1. unfold Dec_bind at 1. rewrite E1.
  change (negb (Byte.eqb socks5Version socks5Version)) with false. cbv iota.
  unfold mbind at 1. unfold Dec_bind at 1. rewrite E2.
  unfold mbind at 1. unfold Dec_bind at 1. rewrite E3.
  unfold mbind at 1. unfold Dec_bind at 1. rewrite E4.
  rewrite !byte_eqb_ne by done.
  unfold mbind at 1. unfold Dec_bind at 1. unfold failwith.
  by exists r4.
Qed.

(** C3: a client that completes the handshake and then sends a request whose
    address type is not 1, 3 or 4. The decoder fails with
    [unrecognizedAddrType]; [ServeConn] sends one reply, with the code 08 and
    the zero address, and then closes; it does not call [handleRequest], so
    nothing is dialled or relayed; and it returns an error. For every other
    decoding error, of any decoder, the session has no reply. *)
Theorem ServeConn_unrecognized_addr_type_reply
    (net : Network) (s : Server) (c : Conn)
    (n cmd rsv atyp : byte) (methods rest : list byte) :
  stream_of (inb c)
    = socks5Version :: n :: methods ++ socks5Version :: cmd :: rsv :: atyp :: rest →
  length methods = Byte.to_nat n →
  (∀ k e, head (wr_script c) ≠ Some (WrFail k e)) →
  atyp ≠ x01 → atyp ≠ x03 → atyp ≠ x04 →
  let hs := handshake (init c) in
  let res := ServeConn NewRequest_spec sendReply_spec (handleRequest_spec net) s c in
  hs.1 = None ∧
  (NewRequest_spec (get_reader hs.2)).1 = inr unrecognizedAddrType ∧
  (∃ k e,
     trace res.2 =
       [EvWrite [x05; x00] 2 None;
        EvWrite [x05; x08; x00; x01; x00; x00; x00; x00; x00; x00] k e;
        EvSendReply addrTypeNotSupported None e;
        EvClose]) ∧
  is_Some res.1 ∧
  closed (conn res.2) = true ∧
  (∀ NewRequest sendReply handleRequest s' c' e',
     (handshake (init c')).1 = None →
     (NewRequest (get_reader (handshake (init c')).2)).1 = inr e' →
     is_unrecognizedAddrType e' = false →
     replies (trace (ServeConn NewRequest sendReply handleRequest s' c').2) = 0).
Proof.
  intros Hs Hn Hw H1 H3 H4 hs res.
  (* the handshake *)
  assert (∃ st1, handshake (init c) = (None, st1) ∧ stream (get_reader st1)
            = socks5Version :: cmd :: rsv :: atyp :: rest) as (st1 & Hhs & Hs1).
  { destruct (handshake_spec (init c)) as (r1 & _ & H).
    rewrite stream_get_reader_init, Hs in H. destruct H as [Hr1 ->].
    change (Byte.eqb socks5Version socks5Version) with true. cbv iota.
    destruct (needNoAuth_spec (put_reader r1 (init c))) as (r2 & _ & H).
    rewrite stream_get_put_reader, Hr1 in H.
    rewrite decide_True in H by (rewrite length_app; lia).
    destruct H as [-> Hr2]. rewrite put_put_reader.
    destruct (Write_spec [socks5Version; noAuth] (put_reader r2 (init c)))
      as (k & err & -> & _ & Herr).
    assert (err = None) as -> by by apply Herr.
    eexists. split; [done|]. change (stream r2 = socks5Version :: cmd :: rsv :: atyp :: rest).
    by rewrite Hr2, <- Hn, drop_app_length. }
  destruct (NewRequest_spec_unrecognized _ _ _ _ _ Hs1 H1 H3 H4) as (r2 & Hd & _).
  subst hs. rewrite Hhs. cbn [fst snd]. rewrite Hd. cbn [fst].
  split; [done|]. split; [done|].
  destruct (handshake_ok _ _ Hhs) as (Ht & _).
  pose proof (ServeConn_body_paths NewRequest_spec sendReply_spec
                (handleRequest_spec net) s (init c)) as H.
  cbv zeta in H. rewrite Hhs, Hd in H. cbn [is_unrecognizedAddrType] in H.
  rewrite call_sendReply_spec in H. cbv zeta in H.
  subst res. rewrite ServeConn_unfold. cbv zeta. rewrite H. cbn [fst snd].
  rewrite closed_Close, trace_Close. cbn [trace]. rewrite trace_put_reader, Ht.
  unfold sendReply_spec. run.
  destruct (Write_spec (encode_reply addrTypeNotSupported None)
              (fresh (put_reader r2 st1))) as (k & e & -> & _).
  cbn [fst snd trace fresh].
  split; [by exists k, e|]. split; [done|]. split; [done|].
  (* every other decoding error *)
  clear. intros NewRequest sendReply handleRequest s c e Hh Hd He.
  pose proof (ServeConn_body_paths NewRequest sendReply handleRequest s (init c)) as H.
  cbv zeta in H. destruct (handshake (init c)) as [err st1] eqn:Hhs.
  cbn [fst snd] in *. subst err.
  destruct (handshake_ok _ _ Hhs) as (Ht & _).
  destruct (NewRequest (get_reader st1)) as [res r2]. cbn [fst] in Hd. subst res.
  rewrite He in H. rewrite ServeConn_unfold. cbv zeta. rewrite H. cbn [snd].
  rewrite trace_Close, trace_put_reader, Ht. done.
Qed.

Lemma ServeConn_unrecognized_addr_type_reply_witness :
  let c := client [greeting; [x05; x01; x00; x09; x00; x50]] EOF [] tcp_client in
  let hs := handshake (init c) in
  let res := ServeConn NewRequest_spec sendReply_spec (handleRequest_spec reaching)
               a_server c in
  hs.1 = None ∧
  (NewRequest_spec (get_reader hs.2)).1 = inr unrecognizedAddrType ∧
  (∃ k e,
     trace res.2 =
       [EvWrite [x05; x00] 2 None;
        EvWrite [x05; x08; x00; x01; x00; x00; x00; x00; x00; x00] k e;
        EvSendReply addrTypeNotSupported None e;
        EvClose]) ∧
  is_Some res.1 ∧
  closed (conn res.2) = true ∧
  (∀ NewRequest sendReply handleRequest s' c' e',
     (handshake (init c')).1 = None →
     (NewRequest (get_reader (handshake (init c')).2)).1 = inr e' →
     is_unrecognizedAddrType e' = false →
     replies (trace (ServeConn NewRequest sendReply handleRequest s' c').2) = 0).
Proof.
  intros c.
  apply (ServeConn_unrecognized_addr_type_reply reaching a_server c
           x01 x01 x00 x09 [x00] [x00; x50]);
    [reflexivity|reflexivity|by intros k e|discriminate..].
Defined.

(** ** Replies and relays in a trace *)

Lemma replies_app (l1 l2 : list event) :
  replies (l1 ++ l2) = replies l1 + replies l2.
Proof. unfold replies. by rewrite filter_app, length_app. Qed.

Lemma replies_quiet (l : list event) : forallb quiet l = true → replies l = 0.
Proof.
  induction l as [|e l IH]; [done|]. cbn [forallb]. intros [He Hl]%andb_prop.
  change (e :: l) with ([e] ++ l). rewrite replies_app, IH by done.
  by destruct e.
Qed.

Lemma relay_after_success_quiet (ok : bool) (l : list event) :
  forallb quiet l = true → relay_after_success ok l = true.
Proof.
  revert ok. induction l as [|e l IH]; [done|]. cbn [forallb].
  intros ok [He Hl]%andb_prop. destruct e; try done; cbn; by apply IH.
Qed.

Lemma relay_after_success_app_l (ok : bool) (l1 l2 : list event) :
  forallb quiet l1 = true →
  relay_after_success ok (l1 ++ l2) = relay_after_success ok l2.
Proof.
  induction l1 as [|e l1 IH]; [done|]. cbn [forallb].
  intros [He Hl]%andb_prop. destruct e; try done; cbn; by apply IH.
Qed.

Lemma relay_after_success_app_r (ok : bool) (l1 l2 : list event) :
  forallb quiet l2 = true →
  relay_after_success ok (l1 ++ l2) = relay_after_success ok l1.
Proof.
  intros Hq. revert ok. induction l1 as [|e l1 IH]; intros ok.
  { by apply relay_after_success_quiet. }
  destruct e as [| | rep bnd [err|] | | | |]; cbn; by rewrite ?IH.
Qed.

Lemma replies_singleton (e : event) :
  replies [e] = if is_reply e then 1 else 0.
Proof. by destruct e. Qed.

Lemma forallb_is_write_quiet (l : list event) :
  forallb is_write l = true → forallb quiet l = true.
Proof.
  induction l as [|e l IH]; [done|]. cbn [forallb].
  intros [He Hl]%andb_prop. rewrite IH by done. by destruct e.
Qed.

(** A handshake only writes. *)
Lemma handshake_writes (st : State) :
  ∃ evs, trace (handshake st).2 = trace st ++ evs ∧ forallb is_write evs = true.
Proof.
  destruct (handshake_inv st) as (_ & _ & [(_ & -> & _)|(n & -> & _)]).
  - exists []. by rewrite app_nil_r.
  - by eexists.
Qed.

(** ** The reply discipline of a session *)

(** The collaborators of the spec keep to their contracts: [sendReply] only
    writes, and the command executor sends one reply and relays only after a
    success reply that was written. *)
Lemma sendReply_spec_only_writes (rep : byte) (bnd : option AddrSpec) (st : State) :
  forallb is_write (trace (sendReply_spec rep bnd (fresh st)).2) = true.
Proof.
  unfold sendReply_spec. run.
  by destruct (Write_spec (encode_reply rep bnd) (fresh st)) as (k & e & -> & _).
Qed.

Lemma handleRequest_spec_guarantee (net : Network) (s : Server) (q : Request) (st : State) :
  let tr := trace (handleRequest_spec net s q (fresh st)).2 in
  replies tr = 1 ∧ relay_after_success false tr = true.
Proof.
  unfold handleRequest_spec, dial, relay. run.
  destruct (Command q); try destruct (net (DestAddr q)) as [up|de];
    rewrite call_sendReply_spec; cbv zeta; unfold sendReply_spec; run;
    match goal with
    | |- context [Write ?p ?st] =>
        destruct (Write_spec p st) as (k & [e|] & -> & _)
    end; done.
Qed.

(** C1, as the code has it: a session has at most one reply; it has one
    exactly when the handshake succeeded and the request was decoded or
    failed to decode with [unrecognizedAddrType]; and no byte is relayed
    before a success reply was sent. This holds with every decoder, every
    [sendReply] that only writes to the connection, and every [handleRequest]
    that sends one reply and relays only after a success reply. *)
Theorem session_reply_discipline
    NewRequest sendReply handleRequest
    (sendReply_writes : ∀ rep bnd st,
       forallb is_write (trace (sendReply rep bnd (fresh st)).2) = true)
    (executor_guarantee : ∀ s q st,
       let tr := trace (handleRequest s q (fresh st)).2 in
       replies tr = 1 ∧ relay_after_success false tr = true)
    (s : Server) (c : Conn) :
  let hs := handshake (init c) in
  let tr := trace (ServeConn NewRequest sendReply handleRequest s c).2 in
  replies tr ≤ 1 ∧
  (replies tr = 1 ↔
     hs.1 = None ∧ leads_to_reply (NewRequest (get_reader hs.2)).1 = true) ∧
  relay_after_success false tr = true.
Proof.
  intros hs tr. subst hs tr.
  rewrite ServeConn_unfold. cbv zeta. cbn [snd]. rewrite trace_Close.
  pose proof (ServeConn_body_paths NewRequest sendReply handleRequest s (init c)) as H.
  cbv zeta in H.
  destruct (handshake_writes (init c)) as (hevs & Hh & Hw%forallb_is_write_quiet).
  change (trace (init c)) with (@nil event) in Hh. cbn [app] in Hh.
  destruct (handshake (init c)) as [[e|] st1]; cbn [fst snd] in *.
  { destruct H as (f & a & ->). cbn [snd record trace]. rewrite Hh.
    rewrite <- (assoc_L (++)), replies_app, (replies_quiet hevs) by done.
    rewrite (replies_quiet ([EvLog f a] ++ [EvClose])) by done.
    rewrite relay_after_success_app_l by done.
    split; [lia|]. split; [|done]. split; [lia|]. by intros [? _]. }
  destruct (NewRequest (get_reader st1)) as [[q|err] r2]; cbn [fst leads_to_reply].
  - rewrite call_handleRequest_spec in H. cbv zeta in H.
    destruct (executor_guarantee s (with_client (remote (conn (put_reader r2 st1))) q)
                (put_reader r2 st1)) as [Hrep Hrel].
    set (q' := with_client _ q) in *.
    set (evs := trace (handleRequest s q' _).2) in *.
    assert (∃ tl, forallb quiet tl = true ∧
              trace (ServeConn_body NewRequest sendReply handleRequest s (init c)).2
                ++ [EvClose]
              = hevs ++ ([EvHandleRequest q'] ++ evs) ++ tl) as (tl & Htl & ->).
    { destruct (handleRequest s q' _).1; rewrite H; cbn [snd record trace];
        rewrite trace_put_reader, Hh; eexists;
        (split; [|by rewrite <- !(assoc_L (++))]); done. }
    rewrite !replies_app, (replies_quiet hevs), (replies_quiet tl), Hrep by done.
    rewrite (replies_quiet [EvHandleRequest q']) by done.
    rewrite relay_after_success_app_l by done.
    rewrite relay_after_success_app_r by done.
    rewrite relay_after_success_app_l by done.
    split; [lia|]. split; [done|]. exact Hrel.
  - destruct (is_unrecognizedAddrType err).
    + rewrite call_sendReply_spec in H. cbv zeta in H. rewrite H.
      cbn [snd trace]. rewrite trace_put_reader, Hh.
      pose proof (sendReply_writes addrTypeNotSupported None (put_reader r2 st1))
        as Hs%forallb_is_write_quiet.
      rewrite <- !(assoc_L (++)).
      rewrite !replies_app, (replies_quiet hevs), (replies_quiet _ Hs) by done.
      rewrite !relay_after_success_app_l by done.
      rewrite !replies_singleton. cbn [is_reply].
      split; [lia|]. split; [done|]. by destruct (sendReply _ _ _).1.
    + rewrite H. cbn [snd]. rewrite trace_put_reader, Hh.
      rewrite replies_app, (replies_quiet hevs) by done.
      rewrite (replies_quiet [EvClose]) by done.
      rewrite relay_after_success_app_l by done.
      split; [lia|]. split; [|done]. split; [lia|]. by intros [_ ?].
Qed.

Lemma session_reply_discipline_witness :
  let c := client [greeting; connect_request; [x61; x62]] EOF [] tcp_client in
  let hs := handshake (init c) in
  let tr := trace (ServeConn NewRequest_spec sendReply_spec
                     (handleRequest_spec reaching) a_server c).2 in
  replies tr ≤ 1 ∧
  (replies tr = 1 ↔
     hs.1 = None ∧ leads_to_reply (NewRequest_spec (get_reader hs.2)).1 = true) ∧
  relay_after_success false tr = true.
Proof.
  intros c.
  apply (session_reply_discipline NewRequest_spec sendReply_spec
           (handleRequest_spec reaching)
           sendReply_spec_only_writes
           (handleRequest_spec_guarantee reaching)
           a_server c).
Defined.

(** A CONNECT session to an upstream that answers: one success reply, then
    the relay. *)
Example connect_session_trace :
  let c := client [greeting; connect_request; [x61; x62]] EOF [] tcp_client in
  filter (λ e, is_reply e || is_relay e)
    (trace (ServeConn_spec reaching a_server c).2)
  = [EvSendReply successReply
       (Some {| FQDN := EmptyString; IP := [x7f; x00; x00; x01]; Port := 4242 |}) None;
     EvRelay ClientToUpstream [x61; x62];
     EvRelay UpstreamToClient [x41; x42]].
Proof. vm_compute. reflexivity. Qed.

(** C1 as stated fails: this client completes the handshake and then closes
    its side. The handshake has succeeded and the session has no reply, so a
    reply is not sent whenever the handshake succeeded, and not every session
    has exactly one. *)
Lemma handshake_without_reply :
  let c := client [[x05; x00]] EOF [] tcp_client in
  let res := ServeConn_spec reaching a_server c in
  (handshake (init c)).1 = None ∧
  replies (trace res.2) = 0 ∧
  trace res.2 = [EvWrite [x05; x00] 2 None; EvClose].
Proof. vm_compute. done. Qed.

(** ** [New] *)

(** C9: for a [Config] at address [l], [New] returns a server, which is not
    nil and holds the address [l] itself, and no error. When the [Logger] of
    the [Config] is nil, the [Config] at [l] is overwritten in the caller's
    store with a logger to standard output, with empty prefix and the
    standard flags; no other field and no other address changes. When it has
    a logger the store is left as it is. *)
Theorem New_installs_default_logger (l : loc) (h : gmap loc Config) (c : Config) :
  h !! l = Some c →
  ∃ h',
    New (Some l) h = Some (Some {| config := l |}, None, h') ∧
    (∀ l', l' ≠ l → h' !! l' = h !! l') ∧
    match Logger c with
    | None =>
        h' !! l =
          Some {| BindIP := BindIP c;
                  Logger := Some {| out := Stdout; prefix := EmptyString; flag := 3 |} |}
    | Some _ => h' = h
    end.
Proof.
  intros Hl. unfold New. cbn. rewrite Hl. cbn.
  eexists. split; [done|].
  destruct (Logger c).
  - done.
  - split; [|by rewrite lookup_insert_eq].
    intros l' Hne. by rewrite lookup_insert_ne.
Qed.

Lemma New_installs_default_logger_witness :
  let c := {| BindIP := [x7f; x00; x00; x01]; Logger := None |} in
  let h : gmap loc Config := {[ 1%positive := c ]} in
  ∃ h',
    New (Some 1%positive) h = Some (Some {| config := 1%positive |}, None, h') ∧
    (∀ l', l' ≠ 1%positive → h' !! l' = h !! l') ∧
    h' !! 1%positive =
      Some {| BindIP := BindIP c;
              Logger := Some {| out := Stdout; prefix := EmptyString; flag := 3 |} |}.
Proof.
  intros c h.
  apply (New_installs_default_logger 1%positive h c).
  apply lookup_singleton_eq.
Defined.

(** A nil [Config] makes [New] panic. *)
Example New_nil_panics (h : gmap loc Config) : New None h = None.
Proof. done. Qed.

(** ** The other ways out of [ServeConn] *)

(** X1: when the client sends nothing, [ServeConn] returns the error of the
    read itself, not wrapped, logs it and closes the connection; nothing is
    written and no collaborator is called. *)
Theorem ServeConn_no_version_byte
    NewRequest sendReply handleRequest (s : Server) (c : Conn) :
  stream_of (inb c) = [] →
  let e := rd_err (inb c) in
  let res := ServeConn NewRequest sendReply handleRequest s c in
  res.1 = Some e ∧
  trace res.2 =
    [EvLog "[ERR] socks: Failed to get version byte: %v" (VErr e); EvClose] ∧
  sent (conn res.2) = sent c ∧
  closed (conn res.2) = true.
Proof.
  intros Hs e res. subst e res. unfold ServeConn, ServeConn_body. run.
  destruct (bufio_Read_one (get_reader (init c))) as (r1 & _ & H1).
  rewrite stream_get_reader_init, Hs in H1. destruct H1 as [-> _]. done.
Qed.

Lemma ServeConn_no_version_byte_witness :
  let c := client [] (OpError "connection reset by peer") [] tcp_client in
  let e := OpError "connection reset by peer" in
  let res := ServeConn_spec reaching a_server c in
  res.1 = Some e ∧
  trace res.2 =
    [EvLog "[ERR] socks: Failed to get version byte: %v" (VErr e); EvClose] ∧
  sent (conn res.2) = sent c ∧
  closed (conn res.2) = true.
Proof.
  intros c.
  apply (ServeConn_no_version_byte NewRequest_spec sendReply_spec
           (handleRequest_spec reaching) a_server c).
  reflexivity.
Defined.

(** The body of [ServeConn] after a version byte 5, when [needNoAuth]
    fails. *)
Lemma ServeConn_needNoAuth_fails
    NewRequest sendReply handleRequest (s : Server) (c : Conn)
    (rest : list byte) (e : error) :
  stream_of (inb c) = socks5Version :: rest →
  (∀ r1, stream r1 = rest → rd_err (src r1) = rd_err (inb c) →
         (needNoAuth (put_reader r1 (init c))).1 = Some e) →
  ∃ r1, stream r1 = rest ∧ rd_err (src r1) = rd_err (inb c) ∧
    ServeConn NewRequest sendReply handleRequest s c =
      (Some e,
       (Close (record (EvLog "[ERR] socks: Invalid method region: %v" (VErr e))
                 (needNoAuth (put_reader r1 (init c))).2)).2).
Proof.
  intros Hs Hn. unfold ServeConn, ServeConn_body. run.
  destruct (bufio_Read_one (get_reader (init c))) as (r1 & He1 & H1).
  rewrite stream_get_reader_init, Hs in H1. destruct H1 as [-> Hs1]. run.
  change (default "000"%byte (head (fill ["000"%byte] [socks5Version])))
    with socks5Version.
  change (negb (Byte.eqb socks5Version socks5Version)) with false. cbv iota.
  exists r1. split; [done|]. split; [done|].
  specialize (Hn r1 Hs1 He1).
  destruct (needNoAuth (put_reader r1 (init c))) as [err st1].
  cbn [fst] in Hn. subst err. done.
Qed.

(** X2: when the stream ends before the method count or inside the methods it
    announces, [ServeConn] returns the read error of [needNoAuth], not
    wrapped: the error that ended the stream, or [io.ErrUnexpectedEOF] when
    the stream ended with [io.EOF] after at least one method byte. It logs the
    error and closes; nothing is written, and no request is decoded. *)
Theorem ServeConn_truncated_greeting
    NewRequest sendReply handleRequest (s : Server) (c : Conn) (rest : list byte) :
  stream_of (inb c) = socks5Version :: rest →
  method_region_complete rest = false →
  let e := match rest with
           | [] => rd_err (inb c)
           | _ :: ms => short_read_error ms (rd_err (inb c))
           end in
  let res := ServeConn NewRequest sendReply handleRequest s c in
  res.1 = Some e ∧
  trace res.2 =
    [EvLog "[ERR] socks: Invalid method region: %v" (VErr e); EvClose] ∧
  sent (conn res.2) = sent c ∧
  closed (conn res.2) = true.
Proof.
  intros Hs Hm e res. subst res.
  assert (∀ r1, stream r1 = rest → rd_err (src r1) = rd_err (inb c) →
            ∃ r2, needNoAuth (put_reader r1 (init c))
                  = (Some e, put_reader r2 (init c))) as Hn.
  { intros r1 Hs1 He1.
    destruct (needNoAuth_spec (put_reader r1 (init c))) as (r2 & He2 & H2).
    rewrite stream_get_put_reader, Hs1 in H2. subst e.
    change (rd_err (inb (conn (put_reader r1 (init c))))) with (rd_err (src r1)) in *.
    rewrite He1 in *. unfold method_region_complete in Hm. exists r2.
    destruct rest as [|n ms].
    - by destruct H2 as [-> _].
    - apply bool_decide_eq_false in Hm. rewrite decide_False in H2 by done.
      by destruct H2 as [-> _]. }
  destruct (ServeConn_needNoAuth_fails NewRequest sendReply handleRequest s c rest e Hs)
    as (r1 & Hs1 & He1 & ->).
  { intros r1 Hs1 He1. destruct (Hn r1 Hs1 He1) as (r2 & ->). done. }
  destruct (Hn r1 Hs1 He1) as (r2 & ->). done.
Qed.

Lemma ServeConn_truncated_greeting_witness :
  let c := client [[x05; x02]; [x00]] EOF [] tcp_client in
  let res := ServeConn_spec reaching a_server c in
  res.1 = Some ErrUnexpectedEOF ∧
  trace res.2 =
    [EvLog "[ERR] socks: Invalid method region: %v" (VErr ErrUnexpectedEOF);
     EvClose] ∧
  sent (conn res.2) = sent c ∧
  closed (conn res.2) = true.
Proof.
  intros c.
  apply (ServeConn_truncated_greeting NewRequest_spec sendReply_spec
           (handleRequest_spec reaching) a_server c [x02; x00]);
    reflexivity.
Defined.

(** X3: when the client's greeting is complete and the write of the method
    selection fails, [ServeConn] returns the error of the write, not wrapped,
    logs it as an invalid method region and closes: no request is decoded and
    no reply is sent, whatever the client sent after the greeting. *)
Theorem ServeConn_method_selection_write_fails
    NewRequest sendReply handleRequest (s : Server) (c : Conn)
    (n : byte) (methods rest : list byte)
    (k : nat) (e : error) (ws : list wr_outcome) :
  stream_of (inb c) = socks5Version :: n :: methods ++ rest →
  length methods = Byte.to_nat n →
  wr_script c = WrFail k e :: ws →
  let res := ServeConn NewRequest sendReply handleRequest s c in
  res.1 = Some e ∧
  trace res.2 =
    [EvWrite [x05; x00] (k `min` 2) (Some e);
     EvLog "[ERR] socks: Invalid method region: %v" (VErr e);
     EvClose] ∧
  sent (conn res.2) = sent c ++ take k [x05; x00] ∧
  closed (conn res.2) = true.
Proof.
  intros Hs Hn Hw res. subst res.
  assert (∀ r1, stream r1 = n :: methods ++ rest →
            ∃ r2, needNoAuth (put_reader r1 (init c))
                  = (let '(_, err, st') :=
                       Write [socks5Version; noAuth] (put_reader r2 (init c)) in
                     (err, st'))) as Hna.
  { intros r1 Hs1.
    destruct (needNoAuth_spec (put_reader r1 (init c))) as (r2 & _ & H2).
    rewrite stream_get_put_reader, Hs1 in H2.
    rewrite decide_True in H2 by (rewrite length_app; lia).
    destruct H2 as [-> _]. by exists r2. }
  assert (∀ r2, Write [socks5Version; noAuth] (put_reader r2 (init c))
            = ((k `min` 2, Some e),
               record (EvWrite [x05; x00] (k `min` 2) (Some e))
                 {| conn := {| inb := src r2; wr_script := ws;
                               sent := sent c ++ take (k `min` 2) [x05; x00];
                               closed := closed c; remote := remote c |};
                    rbuf := buf r2; trace := [] |})) as HW.
  { intros r2. unfold Write. cbn. by rewrite Hw. }
  destruct (ServeConn_needNoAuth_fails NewRequest sendReply handleRequest s c
              (n :: methods ++ rest) e Hs) as (r1 & Hs1 & _ & ->).
  { intros r1 Hs1 _. destruct (Hna r1 Hs1) as (r2 & ->). by rewrite HW. }
  destruct (Hna r1 Hs1) as (r2 & ->). rewrite HW. cbn.
  split_and!; try done. f_equal.
  destruct (decide (k ≤ 2)); [by rewrite Nat.min_l|].
  by rewrite !take_ge by (cbn; lia).
Qed.

Lemma ServeConn_method_selection_write_fails_witness :
  let c := client [greeting; connect_request] EOF
             [WrFail 1 (OpError "broken pipe")] tcp_client in
  let e := OpError "broken pipe" in
  let res := ServeConn_spec reaching a_server c in
  res.1 = Some e ∧
  trace res.2 =
    [EvWrite [x05; x00] (1 `min` 2) (Some e);
     EvLog "[ERR] socks: Invalid method region: %v" (VErr e);
     EvClose] ∧
  sent (conn res.2) = sent c ++ take 1 [x05; x00] ∧
  closed (conn res.2) = true.
Proof.
  intros c.
  apply (ServeConn_method_selection_write_fails NewRequest_spec sendReply_spec
           (handleRequest_spec reaching) a_server c x01 [x00] connect_request
           1 (OpError "broken pipe") []);
    reflexivity.
Defined.

(** X4: [ServeConn] returns nil exactly when the handshake succeeded, the
    request was decoded, and [handleRequest], given that request with the
    client's address, returned nil; every other session returns an error. *)
Theorem ServeConn_returns_nil_iff
    NewRequest sendReply handleRequest (s : Server) (c : Conn) :
  let hs := handshake (init c) in
  let dec := NewRequest (get_reader hs.2) in
  (ServeConn NewRequest sendReply handleRequest s c).1 = None ↔
    hs.1 = None ∧
    ∃ q, dec.1 = inl q ∧
         (handleRequest s (with_client (remote c) q)
            (fresh (put_reader dec.2 hs.2))).1 = None.
Proof.
  intros hs dec. subst hs dec. rewrite ServeConn_unfold. cbv zeta. cbn [fst].
  pose proof (ServeConn_body_paths NewRequest sendReply handleRequest s (init c)) as H.
  cbv zeta in H. destruct (handshake (init c)) as [[e|] st1] eqn:Hhs; cbn [fst snd].
  { destruct H as (f & a & ->). cbn. split; [done|]. by intros [? _]. }
  destruct (handshake_ok _ _ Hhs) as (_ & _ & Hr & _).
  destruct (NewRequest (get_reader st1)) as [[q|err] r2]; cbn [fst snd].
  - rewrite call_handleRequest_spec in H. cbv zeta in H.
    change (remote (conn (put_reader r2 st1))) with (remote (conn st1)) in H.
    rewrite Hr in H. change (remote (conn (init c))) with (remote c) in H.
    destruct (handleRequest s _ _) as [[e|] st3] eqn:Hq; cbn [fst snd] in *;
      rewrite H; cbn [fst].
    + split; [done|]. intros (_ & q' & [= <-] & Hnil).
      rewrite Hq in Hnil. done.
    + split; [|done]. intros _. split; [done|]. exists q. by rewrite Hq.
  - split.
    + destruct (is_unrecognizedAddrType err).
      * by destruct (call_sendReply _ _ _ _) as [e' st3]; rewrite H.
      * by rewrite H.
    + by intros (_ & q & ? & _).
Qed.

(** ** Segments *)

Lemma agree_put_reader (r1 r2 : Reader) (st1 st2 : State) :
  agree st1 st2 →
  stream r1 = stream r2 → rd_err (src r1) = rd_err (src r2) →
  agree (put_reader r1 st1) (put_reader r2 st2).
Proof.
  intros (_ & _ & Hw & Hs & Ht) Hr He. unfold agree.
  by rewrite !stream_get_put_reader.
Qed.

Lemma Write_agree (p : list byte) (st1 st2 : State) :
  agree st1 st2 →
  (Write p st1).1 = (Write p st2).1 ∧ agree (Write p st1).2 (Write p st2).2.
Proof.
  intros (Hr & He & Hw & Hs & Ht). unfold Write, agree. cbn.
  rewrite Hw, Hs, Ht. by destruct (wr_script (conn st2)) as [|[|k e] ws].
Qed.

Lemma needNoAuth_agree (st1 st2 : State) :
  agree st1 st2 →
  (needNoAuth st1).1 = (needNoAuth st2).1 ∧
  agree (needNoAuth st1).2 (needNoAuth st2).2.
Proof.
  intros Ha. pose proof Ha as (Hr & He & _).
  destruct (needNoAuth_spec st1) as (r1 & He1 & H1).
  destruct (needNoAuth_spec st2) as (r2 & He2 & H2).
  cbv zeta in *. rewrite Hr, He in H1. rewrite He in He1.
  destruct (stream (get_reader st2)) as [|n ms].
  { destruct H1 as [-> Hs1], H2 as [-> Hs2]. split; [done|].
    apply agree_put_reader; congruence. }
  case_decide; destruct H1 as [-> Hs1], H2 as [-> Hs2].
  - destruct (Write_agree [socks5Version; noAuth]
                (put_reader r1 st1) (put_reader r2 st2)) as [HW1 HW2].
    { apply agree_put_reader; congruence. }
    destruct (Write _ (put_reader r1 st1)) as [[k1 e1] st1'].
    destruct (Write _ (put_reader r2 st2)) as [[k2 e2] st2'].
    cbn in *. split; [congruence|done].
  - split; [done|]. apply agree_put_reader; congruence.
Qed.

(** X5: the handshake does not depend on how the client's bytes arrive. Two
    connections that deliver the same bytes, ending with the same error, in
    segments split differently, and whose writes go the same way, have the
    same handshake: the same result, the same operations, the same bytes
    sent, and the same bytes left for the decoding of the request. *)
Theorem handshake_segmentation_independent (c1 c2 : Conn) :
  stream_of (inb c1) = stream_of (inb c2) →
  rd_err (inb c1) = rd_err (inb c2) →
  wr_script c1 = wr_script c2 →
  sent c1 = sent c2 →
  let h1 := handshake (init c1) in
  let h2 := handshake (init c2) in
  h1.1 = h2.1 ∧
  trace h1.2 = trace h2.2 ∧
  sent (conn h1.2) = sent (conn h2.2) ∧
  stream (get_reader h1.2) = stream (get_reader h2.2).
Proof.
  intros Hs He Hw Hsent h1 h2. subst h1 h2.
  assert (agree (init c1) (init c2)) as Ha by done.
  destruct (handshake_spec (init c1)) as (r1 & He1 & H1).
  destruct (handshake_spec (init c2)) as (r2 & He2 & H2).
  cbv zeta in *. rewrite stream_get_reader_init in H1, H2.
  change (rd_err (inb (conn (init c1)))) with (rd_err (inb c1)) in *.
  change (rd_err (inb (conn (init c2)))) with (rd_err (inb c2)) in *.
  rewrite Hs, He in H1. rewrite He in He1.
  assert (∀ r r', stream r = stream r' → rd_err (src r) = rd_err (src r') →
            agree (put_reader r (init c1)) (put_reader r' (init c2))) as Hput.
  { intros r r' ? ?. by apply agree_put_reader. }
  destruct (stream_of (inb c2)) as [|b rest].
  { destruct H1 as [-> Hs1], H2 as [-> Hs2].
    destruct (Hput r1 r2) as (? & ? & ? & ? & ?); [congruence..|]. done. }
  destruct H1 as [Hs1 ->], H2 as [Hs2 ->].
  destruct (Byte.eqb b socks5Version).
  - destruct (needNoAuth_agree (put_reader r1 (init c1)) (put_reader r2 (init c2)))
      as [Hn (? & ? & ? & ? & ?)]; [apply Hput; congruence|]. done.
  - destruct (Hput r1 r2) as (? & ? & ? & ? & ?); [congruence..|]. done.
Qed.

Lemma handshake_segmentation_independent_witness :
  let c1 := client [[x05; x02; x00; x02; x05; x01]] EOF [] tcp_client in
  let c2 := client [[x05]; [x02; x00]; [x02]; [x05; x01]] EOF [] tcp_client in
  let h1 := handshake (init c1) in
  let h2 := handshake (init c2) in
  h1.1 = h2.1 ∧
  trace h1.2 = trace h2.2 ∧
  sent (conn h1.2) = sent (conn h2.2) ∧
  stream (get_reader h1.2) = stream (get_reader h2.2).
Proof.
  intros c1 c2.
  apply (handshake_segmentation_independent c1 c2); reflexivity.
Defined.

(** ** [New], again *)

(** X6: after [New] the [Config] it was given has a logger, whether it had
    one or not; a logger that was set is kept, and so is [BindIP]. A second
    [New] on the same [Config] returns a server on the same [Config] and
    changes nothing in the store: all servers made from one [Config] share
    it. *)
Theorem New_leaves_logger_set (l : loc) (h : gmap loc Config) (c : Config) :
  h !! l = Some c →
  ∃ srv h' c',
    New (Some l) h = Some (Some srv, None, h') ∧
    config srv = l ∧
    h' !! l = Some c' ∧
    is_Some (Logger c') ∧
    BindIP c' = BindIP c ∧
    (∀ lg, Logger c = Some lg → Logger c' = Some lg) ∧
    New (Some l) h' = Some (Some srv, None, h').
Proof.
  intros Hl. unfold New. cbn. rewrite Hl. cbn.
  destruct (Logger c) as [lg|] eqn:Hlg.
  - exists {| config := l |}, h, c. rewrite Hl. cbn. rewrite Hlg.
    split_and!; try done; by eexists.
  - eexists {| config := l |}, _, _. rewrite lookup_insert_eq. cbn.
    split_and!; try done; by eexists.
Qed.

Lemma New_leaves_logger_set_witness :
  let c := {| BindIP := [x7f; x00; x00; x01];
              Logger := Some {| out := Stderr; prefix := "socks: "; flag := 0 |} |} in
  let h : gmap loc Config := {[ 2%positive := c ]} in
  ∃ srv h' c',
    New (Some 2%positive) h = Some (Some srv, None, h') ∧
    config srv = 2%positive ∧
    h' !! 2%positive = Some c' ∧
    is_Some (Logger c') ∧
    BindIP c' = BindIP c ∧
    (∀ lg, Logger c = Some lg → Logger c' = Some lg) ∧
    New (Some 2%positive) h' = Some (Some srv, None, h').
Proof.
  intros c h.
  apply (New_leaves_logger_set 2%positive h c).
  apply lookup_singleton_eq.
Defined.

(** ** [Serve] and [ListenAndServe] *)

Lemma Serve_loop_spec NewRequest sendReply handleRequest
    (fuel : nat) (s : Server) (l : Listener) (k : nat)
    (started : list (option error * State))
    (e : error) (ss : list (option error * State)) :
  Serve_loop NewRequest sendReply handleRequest fuel s l k started = Some (e, ss) ↔
  ∃ cs : list Conn,
    length cs < fuel ∧
    (∀ i c, cs !! i = Some c → l (k + i) = inl c) ∧
    l (k + length cs) = inr e ∧
    ss = started ++ (ServeConn NewRequest sendReply handleRequest s <$> cs).
Proof.
  revert k started. induction fuel as [|fuel IH]; intros k started.
  { cbn. split; [done|]. intros (cs & ? & _). lia. }
  cbn [Serve_loop]. destruct (l k) as [conn|err] eqn:Hk.
  - rewrite IH. split.
    + intros (cs & Hlen & Hcs & He & ->). exists (conn :: cs). cbn [length].
      split_and!.
      * lia.
      * intros [|i] c; cbn.
        -- intros [= <-]. by rewrite Nat.add_0_r.
        -- intros Hi. rewrite <- Nat.add_succ_comm. by apply Hcs.
      * by rewrite <- Nat.add_succ_comm.
      * by rewrite <- (assoc_L (++)).
    + intros (cs & Hlen & Hcs & He & ->). destruct cs as [|c0 cs].
      { cbn in He. rewrite Nat.add_0_r in He. congruence. }
      assert (c0 = conn) as ->.
      { specialize (Hcs 0 c0 eq_refl). rewrite Nat.add_0_r in Hcs. congruence. }
      exists cs. cbn [length] in *. split_and!.
      * lia.
      * intros i c Hi. rewrite Nat.add_succ_comm. by apply (Hcs (S i)).
      * by rewrite Nat.add_succ_comm.
      * by rewrite <- (assoc_L (++)).
  - split.
    + intros [= <- <-]. exists []. cbn. rewrite Nat.add_0_r, app_nil_r.
      split_and!; [lia|done..].
    + intros (cs & Hlen & Hcs & He & ->). destruct cs as [|c0 cs].
      * cbn in *. rewrite Nat.add_0_r in He. rewrite app_nil_r. congruence.
      * specialize (Hcs 0 c0 eq_refl). rewrite Nat.add_0_r in Hcs. congruence.
Qed.

(** X7: [Serve] returns only when [Accept] fails, and then with the error of
    [Accept]; by then it has started one session for each connection accepted
    before, in the order of their arrival. What a session returns does not
    count: a failed session does not end the loop. With [fuel] rounds to run,
    [Serve] returns exactly when one of the first [fuel] calls of [Accept]
    fails. *)
Theorem Serve_returns_on_accept_error NewRequest sendReply handleRequest
    (fuel : nat) (s : Server) (l : Listener)
    (e : error) (ss : list (option error * State)) :
  Serve NewRequest sendReply handleRequest fuel s l = Some (e, ss) ↔
  ∃ cs : list Conn,
    length cs < fuel ∧
    (∀ i c, cs !! i = Some c → l i = inl c) ∧
    l (length cs) = inr e ∧
    ss = ServeConn NewRequest sendReply handleRequest s <$> cs.
Proof. unfold Serve. by rewrite Serve_loop_spec. Qed.



(** X9: [ListenAndServe] returns either the error of [net.Listen], and then
    it has printed nothing and started no session, or, after printing the
    address it listens to once, the error of the first [Accept] that fails,
    with one session started for each connection accepted before. *)
Theorem ListenAndServe_returns NewRequest sendReply handleRequest
    (net_Listen : string → string → Listener + error)
    (fuel : nat) (s : Server) (network addr : string)
    (out : list printed) (e : error) (ss : list (option error * State)) :
  ListenAndServe NewRequest sendReply handleRequest net_Listen fuel s network addr
    = (out, Some (e, ss)) ↔
  (net_Listen network addr = inr e ∧ out = [] ∧ ss = []) ∨
  (∃ (l : Listener) (cs : list Conn),
     net_Listen network addr = inl l ∧
     out = [("listening to %v\n", addr)] ∧
     length cs < fuel ∧
     (∀ i c, cs !! i = Some c → l i = inl c) ∧
     l (length cs) = inr e ∧
     ss = ServeConn NewRequest sendReply handleRequest s <$> cs).
Proof.
  unfold ListenAndServe, Serve.
  destruct (net_Listen network addr) as [l|err].
  - split.
    + intros [= <- (cs & ? & ? & ? & ?)%Serve_loop_spec]. right. by exists l, cs.
    + intros [(? & _)|(l' & cs & [= <-] & -> & Hcs)]; [done|].
      f_equal. apply Serve_loop_spec. by exists cs.
  - split.
    + intros [= <- <- <-]. by left.
    + intros [([= ->] & -> & ->)|(l' & cs & ? & _)]; done.
Qed.
